(** * Fixed-role access control (OSS access-control service)

    A shallow embedding of [pkg/services/accesscontrol/ossaccesscontrol]:
    the fixed-role registry, the built-in role expansion, keyword scope
    resolution, evaluation and the per-resource metadata listing.

    Conventions of the embedding:
    - Go [string] is [string]; [int64] is [Z] (only compared, never computed
      with, so no wrap-around arises); a slice is a [list]; a Go map is a
      [gmap] with string keys.
    - The two package-level maps [accesscontrol.FixedRoles] and
      [accesscontrol.FixedRoleGrants] are the fields of [Registry]; the
      functions that write them take the registry and return the new one.
    - A Go result [(v, err)] is [result V := error + V].
    - Logging, metrics and timers have no effect on results and are left out. *)

From Stdlib Require Import ZArith String Ascii List Bool Lia.
From stdpp Require Import base option list gmap strings pretty.

Local Open Scope string_scope.
Local Open Scope list_scope.
Local Open Scope Z_scope.

(** ** Errors and results *)

Inductive error : Type :=
  | ErrFixedRolePrefixMissing
  | ErrInvalidBuiltinRole (builtInRole : string)
  | ErrResolution (scope : string) (cause : error)
  | ErrExternal (msg : string).

Definition result (V : Type) : Type := (error + V)%type.
Definition Ok {V} (v : V) : result V := inr v.
Definition Err {V} (e : error) : result V := inl e.

(** ** package models *)

Module models.

(** [type RoleType string] *)
Definition RoleType : Type := string.

Definition ROLE_VIEWER : RoleType := "Viewer".
Definition ROLE_EDITOR : RoleType := "Editor".
Definition ROLE_ADMIN : RoleType := "Admin".

(** Modelled from the spec: [RoleType.IsValid] is declared in package
    [models], which is not part of the sources at hand.  The recognised
    organisational roles are "Viewer", "Editor" and "Admin". *)
Definition IsValid (r : RoleType) : bool :=
  bool_decide (r = ROLE_VIEWER) || bool_decide (r = ROLE_ADMIN)
  || bool_decide (r = ROLE_EDITOR).

(** Modelled from the spec: [RoleType.Children] is declared in package
    [models], which is not part of the sources at hand.  The organisational
    ladder: the lowest role implies none, each higher role implies all the
    lower ones. *)
Definition Children (r : RoleType) : list RoleType :=
  if bool_decide (r = ROLE_ADMIN) then [ROLE_EDITOR; ROLE_VIEWER]
  else if bool_decide (r = ROLE_EDITOR) then [ROLE_VIEWER]
  else [].

(** The fields of [SignedInUser] that the service reads. *)
Record SignedInUser : Type := {
  UserId : Z;
  OrgId : Z;
  OrgRole : RoleType;
  IsGrafanaAdmin : bool
}.

End models.

(** ** package accesscontrol: data model and registry *)

Module accesscontrol.

Record Permission : Type := {
  Action : string;
  Scope : string
}.

Record RoleDTO : Type := {
  Version : Z;
  UID : string;
  Name : string;
  DisplayName : string;
  Description : string;
  OrgID : Z;
  Permissions : list Permission
}.

Record RoleRegistration : Type := {
  Role : RoleDTO;
  Grants : list string
}.

Definition FixedRolePrefix : string := "fixed:".
Definition RoleGrafanaAdmin : string := "Grafana Admin".

(** The package-level variables [FixedRoles] and [FixedRoleGrants]. *)
Record Registry : Type := {
  FixedRoles : gmap string RoleDTO;
  FixedRoleGrants : gmap string (list string)
}.

Definition emptyRegistry : Registry :=
  {| FixedRoles := ∅; FixedRoleGrants := ∅ |}.

(** [(b, n)] is a grant pair of the registry. *)
Definition granted (reg : Registry) (builtInRole name : string) : Prop :=
  ∃ l, FixedRoleGrants reg !! builtInRole = Some l ∧ name ∈ l.

End accesscontrol.

Import models accesscontrol.

(** ** package ossaccesscontrol: the registry operations *)

(** [saveFixedRole]: keep the stored role unless the incoming version is
    strictly greater. *)
Definition saveFixedRole (role : RoleDTO) (reg : Registry) : Registry :=
  match FixedRoles reg !! Name role with
  | Some storedRole =>
      if Version storedRole >=? Version role then reg
      else {| FixedRoles := <[Name role := role]> (FixedRoles reg);
              FixedRoleGrants := FixedRoleGrants reg |}
  | None =>
      {| FixedRoles := <[Name role := role]> (FixedRoles reg);
         FixedRoleGrants := FixedRoleGrants reg |}
  end.

(** The inner loop of [assignFixedRole]: it scans the whole list and raises
    the flag at every occurrence of the name (there is no [break]). *)
Definition scanAssigned (name : string) (assignments : list string) : bool :=
  foldl (λ alreadyAssigned assignedRole,
           if bool_decide (assignedRole = name) then true else alreadyAssigned)
        false assignments.

(** One iteration of the outer loop of [assignFixedRole].  A missing key
    gives the nil slice, to which [append] adds the name. *)
Definition assignOne (name : string) (reg : Registry) (builtInRole : string)
  : Registry :=
  let lookup := FixedRoleGrants reg !! builtInRole in
  let assignments := default [] lookup in
  let alreadyAssigned :=
    match lookup with
    | Some l => scanAssigned name l
    | None => false
    end in
  if alreadyAssigned then reg
  else {| FixedRoles := FixedRoles reg;
          FixedRoleGrants :=
            <[builtInRole := assignments ++ [name]]> (FixedRoleGrants reg) |}.

Definition assignFixedRole (role : RoleDTO) (builtInRoles : list string)
    (reg : Registry) : Registry :=
  foldl (assignOne (Name role)) reg builtInRoles.

(** [registerFixedRole] saves a fixed role and assigns it to built-in roles. *)
Definition registerFixedRole (role : RoleDTO) (builtInRoles : list string)
    (reg : Registry) : Registry :=
  assignFixedRole role builtInRoles (saveFixedRole role reg).

(** A sequence of [registerFixedRole] calls, in order. *)
Definition registerAll (regs : list RoleRegistration) (reg : Registry)
  : Registry :=
  foldl (λ st r, registerFixedRole (Role r) (Grants r) st) reg regs.

(** [getFixedPermissions], with its three nested loops and the accumulator
    [permissions] they append to. *)
Definition appendRolePermissions (reg : Registry)
    (permissions : list Permission) (name : string) : list Permission :=
  match FixedRoles reg !! name with
  | None => permissions
  | Some role =>
      foldl (λ acc p, acc ++ [p]) permissions (Permissions role)
  end.

Definition appendBuiltinPermissions (reg : Registry)
    (permissions : list Permission) (builtin : string) : list Permission :=
  match FixedRoleGrants reg !! builtin with
  | Some roleNames => foldl (appendRolePermissions reg) permissions roleNames
  | None => permissions
  end.

Definition getFixedPermissions (reg : Registry) (builtinRoles : list string)
  : list Permission :=
  foldl (appendBuiltinPermissions reg) [] builtinRoles.

(** [GetUserBuiltInRoles] *)
Definition GetUserBuiltInRoles (user : SignedInUser) : list string :=
  let roles := [OrgRole user] in
  let roles := foldl (λ acc role, acc ++ [role]) roles (Children (OrgRole user)) in
  if IsGrafanaAdmin user then roles ++ [RoleGrafanaAdmin] else roles.

(** ** package accesscontrol: validation, scopes, resolver, evaluator, store *)

Module setting.
(** The part of [setting.Cfg] that the service reads. *)
Record Cfg : Type := { FeatureToggles : gmap string bool }.
End setting.

(** Modelled from the spec: [accesscontrol.ValidateFixedRole] is not part of
    the sources at hand.  A fixed role's name must carry the reserved
    fixed-role prefix. *)
Definition ValidateFixedRole (role : RoleDTO) : option error :=
  if String.prefix FixedRolePrefix (Name role) then None
  else Some ErrFixedRolePrefixMissing.

(** Modelled from the spec: the recognised built-in-role names are the three
    organisational roles and the super-admin sentinel. *)
Definition isBuiltInRole (br : string) : bool :=
  IsValid br || bool_decide (br = RoleGrafanaAdmin).

(** Modelled from the spec: [accesscontrol.ValidateBuiltInRoles] is not part
    of the sources at hand.  Every grant target must be a recognised
    built-in-role name; the first one that is not is reported. *)
Fixpoint ValidateBuiltInRoles (builtInRoles : list string) : option error :=
  match builtInRoles with
  | [] => None
  | br :: rest =>
      if isBuiltInRole br then ValidateBuiltInRoles rest
      else Some (ErrInvalidBuiltinRole br)
  end.

(** Modelled from the spec: [accesscontrol.RegistrationList] is not part of
    the sources at hand.  It is the queue of declared registrations:
    [Append] adds to its end, [Range] visits the queued registrations in
    order for as long as the callback answers [true]. *)
Definition RegistrationList : Type := list RoleRegistration.

Definition Append (m : RegistrationList) (regs : list RoleRegistration)
  : RegistrationList := m ++ regs.

Fixpoint Range {S : Type} (f : RoleRegistration → S → S * bool)
    (m : RegistrationList) (s : S) : S :=
  match m with
  | [] => s
  | registration :: rest =>
      let '(s', ok) := f registration s in
      if ok then Range f rest s' else s'
  end.

(** Modelled from the spec: [accesscontrol.Scope] (called [JoinScope] here,
    the name [Scope] being the field of [Permission]) is not part of the
    sources at hand.  Scope segments are colon-delimited. *)
Fixpoint JoinScope (parts : list string) : string :=
  match parts with
  | [] => ""
  | [c] => c
  | c :: rest => c +:+ ":" +:+ JoinScope rest
  end.

(** Modelled from the spec: the three scope builders used by the metadata
    listing are not part of the sources at hand: the concrete scope of one
    resource ID, the scope of all resources of a type and the scope of all
    IDs of a type. *)
Definition GetResourceScope (resource resourceID : string) : string :=
  JoinScope [resource; "id"; resourceID].
Definition GetResourceAllScope (resource : string) : string :=
  JoinScope [resource; "*"].
Definition GetResourceAllIDScope (resource : string) : string :=
  JoinScope [resource; "id"; "*"].

(** Modelled from the spec: [accesscontrol.ScopeResolver] is not part of the
    sources at hand.  A resolver knows a set of placeholder keywords, each
    with the function that computes the concrete scope from the principal or
    fails when the principal lacks what the placeholder needs. *)
Record ScopeResolver : Type := {
  keywordResolvers : gmap string (SignedInUser → result string)
}.

(** Modelled from the spec: a scope without a recognised keyword is returned
    unchanged; a recognised keyword is replaced by the resolved scope, in a
    copy of the permission; a failed resolution is a resolution error. *)
Definition ResolveKeyword (s : ScopeResolver) (user : SignedInUser)
    (permission : Permission) : result Permission :=
  match keywordResolvers s !! Scope permission with
  | Some fn =>
      match fn user with
      | inl err => Err (ErrResolution (Scope permission) err)
      | inr resolvedScope =>
          Ok {| Action := Action permission; Scope := resolvedScope |}
      end
  | None => Ok permission
  end.

(** Modelled from the spec: the self-referential user scope becomes the
    per-user scope of the principal's numeric identifier. *)
Definition resolveUserSelf (u : SignedInUser) : result string :=
  Ok (JoinScope ["users"; "id"; pretty (UserId u)]).

(** Modelled from the spec: [accesscontrol.NewScopeResolver] is not part of
    the sources at hand; the one keyword the spec names is the user
    self-reference. *)
Definition NewScopeResolver : ScopeResolver :=
  {| keywordResolvers := {[ "users:self" := resolveUserSelf ]} |}.

(** Modelled from the spec: the evaluator's wildcard rule is not part of the
    sources at hand.  [wildcardPrefix] gives the literal prefix of a scope
    that ends in the wildcard marker. *)
Fixpoint wildcardPrefix (scope : string) : option string :=
  match scope with
  | EmptyString => None
  | String c EmptyString =>
      if Ascii.eqb c "*" then Some EmptyString else None
  | String c rest => String c <$> wildcardPrefix rest
  end.

Fixpoint endsWithColon (s : string) : bool :=
  match s with
  | EmptyString => false
  | String c EmptyString => Ascii.eqb c ":"
  | String _ rest => endsWithColon rest
  end.

(** A literal prefix stops at a segment boundary when it is empty or ends
    with the segment delimiter. *)
Definition atSegmentBoundary (p : string) : bool :=
  String.eqb p "" || endsWithColon p.

(** Modelled from the spec: a granted scope matches a required scope when
    they are textually equal, or the granted scope is the universal wildcard,
    or it ends in the wildcard marker and its literal prefix is a prefix of
    the required scope at a segment boundary. *)
Definition scopeMatch (granted required : string) : bool :=
  String.eqb granted required
  || String.eqb granted "*"
  || match wildcardPrefix granted with
     | Some p => atSegmentBoundary p && String.prefix p required
     | None => false
     end.


(** Modelled from the spec: [accesscontrol.Evaluator] is not part of the
    sources at hand.  An evaluator is a boolean tree over leaves, each leaf a
    required (action, scope) pair. *)
#[warnings="-register-all"]
Inductive Evaluator : Type :=
  | EvalPermission (action scope : string)
  | EvalAll (allOf : list Evaluator)
  | EvalAny (anyOf : list Evaluator).

(** Modelled from the spec: the interface [accesscontrol.Evaluator] is not
    part of the sources at hand.  The call site in [Evaluate] shows the one
    method the service uses: it takes the permissions grouped by action and
    its result is the pair [(bool, error)].  An implementation of the
    interface is an instance of this class. *)
Class EvaluatorMethods (E : Type) : Type :=
  Evaluator_Evaluate : E → gmap string (gset string) → result bool.

(** Modelled from the spec: the [Evaluate] methods of the spec's evaluators
    are not part of the sources at hand.  An AND of evaluators needs all its
    children true, an OR of evaluators at least one; all children are
    evaluated, and an error of a child would be the result. *)
Definition evaluateAll (eval : Evaluator → result bool)
  : list Evaluator → result bool :=
  fix all (l : list Evaluator) : result bool :=
    match l with
    | [] => Ok true
    | e :: rest =>
        match eval e with
        | inl err => Err err
        | inr b =>
            match all rest with
            | inl err => Err err
            | inr bs => Ok (b && bs)
            end
        end
    end.

(** Modelled from the spec: an OR of evaluators, the counterpart of
    [evaluateAll]; it needs at least one child true. *)
Definition evaluateAny (eval : Evaluator → result bool)
  : list Evaluator → result bool :=
  fix any (l : list Evaluator) : result bool :=
    match l with
    | [] => Ok false
    | e :: rest =>
        match eval e with
        | inl err => Err err
        | inr b =>
            match any rest with
            | inl err => Err err
            | inr bs => Ok (b || bs)
            end
        end
    end.

(** Modelled from the spec: a leaf is true when the required action is in
    the index and at least one scope granted for it matches the required
    scope. *)
Fixpoint evaluateTree (permissions : gmap string (gset string))
    (e : Evaluator) : result bool :=
  match e with
  | EvalPermission action scope =>
      match permissions !! action with
      | Some userScopes =>
          Ok (existsb (λ s, scopeMatch s scope) (elements userScopes))
      | None => Ok false
      end
  | EvalAll allOf => evaluateAll (evaluateTree permissions) allOf
  | EvalAny anyOf => evaluateAny (evaluateTree permissions) anyOf
  end.

(** Modelled from the spec: the spec's evaluators implement the interface
    with [evaluateTree]. *)
#[global] Instance Evaluator_methods : EvaluatorMethods Evaluator :=
  λ e permissions, evaluateTree permissions e.

(** The query and the interface of the external permission store. *)
Record GetUserResourcesPermissionsQuery : Type := {
  BuiltInRoles : list string;
  Resource : string;
  ResourceIDs : list string
}.

Record ResourceStore : Type := {
  GetUserResourcePermissions :
    Z → Z → GetUserResourcesPermissionsQuery → result (list Permission)
}.

(** [Metadata] maps an action to [true]. *)
Abbreviation Metadata := (gmap string bool).

(** ** package ossaccesscontrol: the service *)

Record OSSAccessControlService : Type := {
  Cfg : option setting.Cfg;
  registrations : RegistrationList;
  scopeResolver : ScopeResolver;
  store : ResourceStore
}.

Definition IsDisabled (ac : OSSAccessControlService) : bool :=
  match Cfg ac with
  | None => true
  | Some cfg =>
      match setting.FeatureToggles cfg !! "accesscontrol" with
      | Some _ => false
      | None => true
      end
  end.

Definition withRegistrations (ac : OSSAccessControlService)
    (l : RegistrationList) : OSSAccessControlService :=
  {| Cfg := Cfg ac; registrations := l;
     scopeResolver := scopeResolver ac; store := store ac |}.

(** The loop of [DeclareFixedRoles]: each registration is validated and, when
    valid, appended at once; the first error ends the call. *)
Fixpoint declareLoop (ac : OSSAccessControlService)
    (regs : list RoleRegistration) : OSSAccessControlService * option error :=
  match regs with
  | [] => (ac, None)
  | r :: rest =>
      match ValidateFixedRole (Role r) with
      | Some err => (ac, Some err)
      | None =>
          match ValidateBuiltInRoles (Grants r) with
          | Some err => (ac, Some err)
          | None =>
              declareLoop (withRegistrations ac (Append (registrations ac) [r]))
                          rest
          end
      end
  end.

(** [DeclareFixedRoles] returns the service as the call leaves it and the
    error, if any. *)
Definition DeclareFixedRoles (ac : OSSAccessControlService)
    (regs : list RoleRegistration) : OSSAccessControlService * option error :=
  if IsDisabled ac then (ac, None) else declareLoop ac regs.

(** [RegisterFixedRoles] registers all declared roles in the registry. *)
Definition RegisterFixedRoles (ac : OSSAccessControlService) (reg : Registry)
  : Registry * option error :=
  if IsDisabled ac then (reg, None)
  else
    (Range (λ registration st,
              (registerFixedRole (Role registration) (Grants registration) st,
               true))
           (registrations ac) reg,
     None).

(** The loop of [GetUserPermissions]. *)
Fixpoint resolveLoop (ac : OSSAccessControlService) (user : SignedInUser)
    (resolved : list Permission) (permissions : list Permission)
  : result (list Permission) :=
  match permissions with
  | [] => Ok resolved
  | p :: rest =>
      match ResolveKeyword (scopeResolver ac) user p with
      | inl err => Err err
      | inr permission => resolveLoop ac user (resolved ++ [permission]) rest
      end
  end.

Definition GetUserPermissions (ac : OSSAccessControlService) (reg : Registry)
    (user : SignedInUser) : result (list Permission) :=
  let permissions := getFixedPermissions reg (GetUserBuiltInRoles user) in
  resolveLoop ac user [] permissions.


(** The scope test of [GetResourcesMetadata]. *)
Definition scopeCovers (resource r : string) (p : Permission) : bool :=
  bool_decide (Scope p = "*")
  || bool_decide (Scope p = GetResourceAllScope resource)
  || bool_decide (Scope p = GetResourceAllIDScope resource)
  || bool_decide (Scope p = GetResourceScope resource r).

(** The body of the inner loop of [GetResourcesMetadata]. *)
Definition recordPermission (resource r : string)
    (result : gmap string Metadata) (p : Permission) : gmap string Metadata :=
  if scopeCovers resource r p then
    let metadata := default ∅ (result !! r) in
    <[r := <[Action p := true]> metadata]> result
  else result.

Definition recordResource (resource : string)
    (userPermissions : list Permission)
    (result : gmap string Metadata) (r : string) : gmap string Metadata :=
  foldl (recordPermission resource r) result userPermissions.

(** [GetResourcesMetadata] lists, for each resource, the user's actions. *)
Definition GetResourcesMetadata (ac : OSSAccessControlService)
    (reg : Registry) (user : SignedInUser) (resource : string)
    (resourceIDs : list string) : result (gmap string Metadata) :=
  let builtInRoles := GetUserBuiltInRoles user in
  let fixedPermissions := getFixedPermissions reg builtInRoles in
  match GetUserResourcePermissions (store ac) (OrgId user) (UserId user)
          {| BuiltInRoles := builtInRoles; Resource := resource;
             ResourceIDs := resourceIDs |} with
  | inl err => Err err
  | inr storedPermissions =>
      let userPermissions := fixedPermissions ++ storedPermissions in
      Ok (foldl (recordResource resource userPermissions) ∅ resourceIDs)
  end.

(** ** Reference definitions used in the statements *)

(** The role names granted to a list of built-in roles, in the order the
    loops of [getFixedPermissions] meet them. *)
Definition grantedRoleNames (reg : Registry) (builtinRoles : list string)
  : list string :=
  builtinRoles ≫= λ builtin, default [] (FixedRoleGrants reg !! builtin).

(** The concatenation of the permissions of the granted role names that are
    present in the registry. *)
Definition presentRolePermissions (reg : Registry)
    (builtinRoles : list string) : list Permission :=
  concat (Permissions <$>
            omap (λ name, FixedRoles reg !! name)
                 (grantedRoleNames reg builtinRoles)).

(** A registration is invalid when its role name lacks the reserved prefix
    or one of its grant targets is not a recognised built-in-role name. *)
Definition invalidRegistration (r : RoleRegistration) : Prop :=
  String.prefix FixedRolePrefix (Name (Role r)) = false
  ∨ ∃ br, br ∈ Grants r ∧ isBuiltInRole br = false.

(** What the resolver of [NewScopeResolver] makes of a permission. *)
Definition selfResolved (user : SignedInUser) (p : Permission) : Permission :=
  if bool_decide (Scope p = "users:self") then
    {| Action := Action p;
       Scope := JoinScope ["users"; "id"; pretty (UserId user)] |}
  else p.

(** A permission's scope covers resource ID [r] of a resource type. *)
Definition coveredBy (resource r : string) (p : Permission) : Prop :=
  Scope p = "*"
  ∨ Scope p = GetResourceAllScope resource
  ∨ Scope p = GetResourceAllIDScope resource
  ∨ Scope p = GetResourceScope resource r.

(** Action [A] is recorded under resource ID [r] in a metadata map. *)
Definition recorded (m : gmap string Metadata) (r A : string) : Prop :=
  ∃ metadata, m !! r = Some metadata ∧ metadata !! A = Some true.

(** Every resource ID present in a metadata map has a non-empty action map,
    all of whose entries are [true]. *)
Definition populated (m : gmap string Metadata) : Prop :=
  ∀ r metadata, m !! r = Some metadata →
    metadata ≠ ∅ ∧ ∀ A b, metadata !! A = Some b → b = true.




(** ** Fixtures, after the package's tests *)

Definition testRole (version : Z) (description : string)
    (permissions : list Permission) : RoleDTO :=
  {| Version := version; UID := "fixed:test:test"; Name := "fixed:test:test";
     DisplayName := ""; Description := description; OrgID := 0;
     Permissions := permissions |}.

Definition permUsersReadSelf : Permission :=
  {| Action := "users:read"; Scope := "users:self" |}.

Definition roleV1 : RoleDTO := testRole 1 "Test role" [permUsersReadSelf].
Definition roleV1again : RoleDTO := testRole 1 "Test role, declared again" [].
Definition roleV2 : RoleDTO := testRole 2 "Test role, next version" [].

(** The registry after [roleV1] was registered and granted to "Viewer". *)
Definition registryV1 : Registry :=
  registerFixedRole roleV1 ["Viewer"] emptyRegistry.

Definition registryGhost : Registry :=
  {| FixedRoles := ∅; FixedRoleGrants := {[ "Viewer" := ["fixed:ghost"] ]} |}.

Definition regAdmin : RoleRegistration :=
  {| Role := roleV1; Grants := ["Admin"] |}.
Definition regWrongAdmin : RoleRegistration :=
  {| Role := roleV1; Grants := ["WrongAdmin"] |}.

Definition emptyStore : ResourceStore :=
  {| GetUserResourcePermissions := λ _ _ _, Ok [] |}.

Definition enabledService : OSSAccessControlService :=
  {| Cfg := Some {| setting.FeatureToggles := {[ "accesscontrol" := true ]} |};
     registrations := [];
     scopeResolver := NewScopeResolver;
     store := emptyStore |}.


Definition testUser : SignedInUser :=
  {| UserId := 2; OrgId := 3; OrgRole := ROLE_VIEWER; IsGrafanaAdmin := false |}.

Definition permUsersReadTwo : Permission :=
  {| Action := "users:read"; Scope := "users:id:2" |}.

Definition permTeamsReadSelf : Permission :=
  {| Action := "teams:read"; Scope := "teams:self" |}.

(** A resolver that knows a self-team placeholder; the principal carries no
    team context, so resolving it fails. *)
Definition teamScopeResolver : ScopeResolver :=
  {| keywordResolvers :=
       {[ "teams:self" := λ _, Err (ErrExternal "no team context") ]} |}.

Definition teamService : OSSAccessControlService :=
  {| Cfg := Cfg enabledService; registrations := [];
     scopeResolver := teamScopeResolver; store := emptyStore |}.

Definition registryTeam : Registry :=
  registerFixedRole (testRole 1 "Team role" [permUsersReadSelf; permTeamsReadSelf])
    ["Viewer"] emptyRegistry.

Definition failingStore : ResourceStore :=
  {| GetUserResourcePermissions := λ _ _ _, Err (ErrExternal "store down") |}.

Definition failingStoreService : OSSAccessControlService :=
  {| Cfg := Cfg enabledService; registrations := [];
     scopeResolver := NewScopeResolver; store := failingStore |}.

(** A store that holds one action on resource "2" only. *)
Definition storeResourceTwo : ResourceStore :=
  {| GetUserResourcePermissions := λ _ _ _,
       Ok [{| Action := "resources:action2"; Scope := "resources:id:2" |}] |}.

Definition storeService : OSSAccessControlService :=
  {| Cfg := Cfg enabledService; registrations := [];
     scopeResolver := NewScopeResolver; store := storeResourceTwo |}.

(** ** package filestorage: [removeStoragePrefix] *)

(** Go's [strings.TrimPrefix], [strings.Contains], [strings.Split] and
    [strings.Join], on strings of bytes. *)
Fixpoint stripPrefix (prefix s : string) : option string :=
  match prefix with
  | EmptyString => Some s
  | String a prefix' =>
      match s with
      | EmptyString => None
      | String b s' => if Ascii.eqb a b then stripPrefix prefix' s' else None
      end
  end.

Definition TrimPrefix (s prefix : string) : string :=
  default s (stripPrefix prefix s).

Fixpoint Contains (s substr : string) : bool :=
  String.prefix substr s
  || match s with
     | EmptyString => false
     | String _ s' => Contains s' substr
     end.

(** [splitFrom sep s skip cur] reads [s] from left to right: [cur] is the
    piece read so far, [skip] the number of bytes of a separator found just
    before that are still to be passed over. *)
Fixpoint splitFrom (sep s : string) (skip : nat) (cur : string) : list string :=
  match s with
  | EmptyString => [cur]
  | String c s' =>
      match skip with
      | S k => splitFrom sep s' k cur
      | O =>
          if String.prefix sep s
          then cur :: splitFrom sep s' (String.length sep - 1) EmptyString
          else splitFrom sep s' 0 (cur +:+ String c EmptyString)
      end
  end.

(** The width in bytes of the UTF-8 sequence at the head of a string, as
    Go's [utf8.DecodeRuneInString] gives it: the first byte fixes the length
    of the sequence and the range of the second byte, the further bytes are
    continuation bytes; a byte that starts no valid sequence, or a sequence
    that is cut short, has width 1. *)
Definition byteIn (lo hi : N) (c : ascii) : bool :=
  (lo <=? N_of_ascii c)%N && (N_of_ascii c <=? hi)%N.

Definition sequenceWidth (size : nat) (lo hi : N) (rest : string) : nat :=
  match size, rest with
  | 2%nat, String c1 _ => if byteIn lo hi c1 then 2%nat else 1%nat
  | 3%nat, String c1 (String c2 _) =>
      if byteIn lo hi c1 && byteIn 128 191 c2 then 3%nat else 1%nat
  | 4%nat, String c1 (String c2 (String c3 _)) =>
      if byteIn lo hi c1 && byteIn 128 191 c2 && byteIn 128 191 c3
      then 4%nat else 1%nat
  | _, _ => 1%nat
  end.

Definition runeWidth (c0 : ascii) (rest : string) : nat :=
  let b := N_of_ascii c0 in
  if (b <? 128)%N then 1%nat
  else if (b <? 194)%N then 1%nat
  else if (b <? 224)%N then sequenceWidth 2 128 191 rest
  else if (b =? 224)%N then sequenceWidth 3 160 191 rest
  else if (b =? 237)%N then sequenceWidth 3 128 159 rest
  else if (b <? 240)%N then sequenceWidth 3 128 191 rest
  else if (b =? 240)%N then sequenceWidth 4 144 191 rest
  else if (b <? 244)%N then sequenceWidth 4 128 191 rest
  else if (b =? 244)%N then sequenceWidth 4 128 143 rest
  else 1%nat.

(** With the empty separator Go splits after each UTF-8 sequence, a byte
    that belongs to no valid sequence being a piece of its own.
    [explodeFrom s pending cur] reads [s] from left to right: [cur] holds
    the bytes read of the sequence at hand, [pending] counts its bytes still
    to come. *)
Fixpoint explodeFrom (s : string) (pending : nat) (cur : string)
  : list string :=
  match s with
  | EmptyString => []
  | String c s' =>
      match pending with
      | S O => (cur +:+ String c EmptyString) :: explodeFrom s' 0 EmptyString
      | S k => explodeFrom s' k (cur +:+ String c EmptyString)
      | O =>
          match runeWidth c s' with
          | S (S k) => explodeFrom s' (S k) (String c EmptyString)
          | _ => String c EmptyString :: explodeFrom s' 0 EmptyString
          end
      end
  end.

Definition explode (s : string) : list string := explodeFrom s 0 EmptyString.

Definition Split (s sep : string) : list string :=
  if String.eqb sep "" then explode s else splitFrom sep s 0 EmptyString.

Fixpoint Join (elems : list string) (sep : string) : string :=
  match elems with
  | [] => ""
  | [e] => e
  | e :: rest => e +:+ sep +:+ Join rest sep
  end.

(** [removeStoragePrefix].  The constant [Delimiter] is declared elsewhere in
    the package and is a parameter here.  [split[0] = ""] is the update of the
    first element of a slice that [Split] never returns empty. *)
Definition removeStoragePrefix (Delimiter path : string) : string :=
  let path := TrimPrefix path Delimiter in
  if String.eqb path Delimiter || String.eqb path "" then Delimiter
  else if negb (Contains path Delimiter) then Delimiter
  else
    let split := Split path Delimiter in
    if Nat.eqb (length split) 2
       && bool_decide (split !! 1%nat = Some "")
    then Delimiter
    else Join (<[0%nat := ""]> split) Delimiter.

(** [service.getBackend].  [validatePath] is declared elsewhere in the
    package and is a parameter, as is the type [B] of the backends (the
    interface [FileStorage]).  The loop ranges over the map [backendByName]
    in an order that Go leaves unspecified: [order] is the order of one run,
    a listing of the entries of the map.  The result is the backend, the new
    path and no error, or the error of [validatePath]. *)
Definition getBackend {B : Type} (validatePath : string → option error)
    (Delimiter : string) (dummyBackend : B) (order : list (string * B))
    (path : string) : result (B * string) :=
  match validatePath path with
  | Some err => Err err
  | None =>
      match List.find (λ entry, String.prefix (Delimiter +:+ entry.1) path)
                      order with
      | Some entry => Ok (entry.2, removeStoragePrefix Delimiter path)
      | None => Ok (dummyBackend, path)
      end
  end.

(** ** More of the service and of its tests *)

(** [getUsageMetrics]: the value reported as
    "stats.oss.accesscontrol.enabled.count". *)
Definition getUsageMetrics (ac : OSSAccessControlService) : Z :=
  if IsDisabled ac then 0 else 1.

(** The inner loop of the tests' [removeRoleHelper].  [make([]string, n)]
    yields [n] empty strings, and the loop appends to them the grants that
    are not the removed role. *)
Definition keptGrants (role : string) (grants : list string) : list string :=
  foldl (λ newGrants r,
           if bool_decide (r ≠ role) then newGrants ++ [r] else newGrants)
        (replicate (length grants) "") grants.

(** The tests' [removeRoleHelper]: the role is deleted from the role map,
    the replacement grant lists are computed for every built-in role, and
    then written back.  The two [range] loops over Go maps are folds in an
    unspecified order. *)
Definition removeRoleHelper (role : string) (reg : Registry) : Registry :=
  let roles := delete role (FixedRoles reg) in
  let replaceGrants : gmap string (list string) :=
    map_fold (λ builtInRole grants acc,
                <[builtInRole := keptGrants role grants]> acc)
             ∅ (FixedRoleGrants reg) in
  {| FixedRoles := roles;
     FixedRoleGrants :=
       map_fold (λ br grants acc, <[br := grants]> acc)
                (FixedRoleGrants reg) replaceGrants |}.

(** A registration has taken effect in a registry: a role of its name is
    stored with a version at least the registration's, and each of its grant
    targets holds the name. *)
Definition absorbed (r : RoleRegistration) (reg : Registry) : Prop :=
  (∃ stored, FixedRoles reg !! Name (Role r) = Some stored
             ∧ Version stored >= Version (Role r))
  ∧ ∀ b, b ∈ Grants r → granted reg b (Name (Role r)).

(** Every stored role is stored under its own name. *)
Definition keyedByName (reg : Registry) : Prop :=
  ∀ k role, FixedRoles reg !! k = Some role → Name role = k.

(** Every granted role name is the name of a stored role. *)
Definition grantsRegistered (reg : Registry) : Prop :=
  ∀ b n, granted reg b n → is_Some (FixedRoles reg !! n).

(** A service whose feature toggle is present with the value [false]. *)
Definition toggledOffService : OSSAccessControlService :=
  {| Cfg := Some {| setting.FeatureToggles := {[ "accesscontrol" := false ]} |};
     registrations := [regAdmin];
     scopeResolver := NewScopeResolver;
     store := emptyStore |}.

(** A service without configuration. *)
Definition unconfiguredService : OSSAccessControlService :=
  {| Cfg := None; registrations := [regAdmin];
     scopeResolver := NewScopeResolver; store := emptyStore |}.

(** An enabled service with two queued registrations of the test role. *)
Definition queuedService : OSSAccessControlService :=
  withRegistrations enabledService
    [{| Role := roleV1; Grants := ["Viewer"] |};
     {| Role := roleV2; Grants := ["Viewer"; "Editor"] |}].

(** The registry of the tests' cleanup: some roles granted, one of them
    removed afterwards. *)
Definition registryTwoRoles : Registry :=
  registerFixedRole
    {| Version := 1; UID := ""; Name := "fixed:test2:test2"; DisplayName := "";
       Description := ""; OrgID := 0; Permissions := [permUsersReadTwo] |}
    ["Viewer"; "Admin"] registryV1.

(** The backends of the static configuration of [newConfig]: one, named
    "public".  Backends are told apart by their names here, and no path is
    refused. *)
Definition publicBackends : gmap string string := {[ "public" := "public" ]}.

(** * Properties *)

(** Membership in a list that is written out. *)
Ltac list_mem :=
  repeat first [apply list_elem_of_here | apply list_elem_of_further].

(** ** Loops as list operations *)

Lemma foldl_snoc {A} (l acc : list A) :
  foldl (λ acc x, acc ++ [x]) acc l = acc ++ l.
Proof.
  revert acc. induction l as [|x l IH]; intros acc; simpl.
  - by rewrite app_nil_r.
  - rewrite IH. by rewrite <- app_assoc.
Qed.

Lemma scanAssigned_from (name : string) (l : list string) (flag : bool) :
  foldl (λ alreadyAssigned assignedRole,
           if bool_decide (assignedRole = name) then true else alreadyAssigned)
        flag l
  = flag || bool_decide (name ∈ l).
Proof.
  revert flag. induction l as [|a l IH]; intros flag; simpl.
  - by rewrite orb_false_r.
  - rewrite IH. destruct (decide (a = name)) as [->|Hne].
    + rewrite bool_decide_eq_true_2 by done.
      rewrite (bool_decide_eq_true_2 (name ∈ name :: l)) by apply list_elem_of_here.
      by rewrite orb_true_r.
    + rewrite bool_decide_eq_false_2 by done.
      f_equal. apply bool_decide_ext. rewrite elem_of_cons.
      split; [by right | intros [Heq|Hin]; [congruence | done]].
Qed.

Lemma scanAssigned_spec (name : string) (l : list string) :
  scanAssigned name l = bool_decide (name ∈ l).
Proof. unfold scanAssigned. by rewrite scanAssigned_from. Qed.

(** ** The registry: saving and assigning *)

Lemma saveFixedRole_grants role reg :
  FixedRoleGrants (saveFixedRole role reg) = FixedRoleGrants reg.
Proof.
  unfold saveFixedRole. destruct (FixedRoles reg !! Name role) as [s|]; [|done].
  by destruct (Version s >=? Version role).
Qed.

Lemma saveFixedRole_kept role reg stored :
  FixedRoles reg !! Name role = Some stored →
  Version stored >= Version role →
  saveFixedRole role reg = reg.
Proof.
  intros Hs Hv. unfold saveFixedRole. rewrite Hs.
  destruct (Z.geb_spec (Version stored) (Version role)); [done | lia].
Qed.

Lemma saveFixedRole_replaced role reg stored :
  FixedRoles reg !! Name role = Some stored →
  Version stored < Version role →
  FixedRoles (saveFixedRole role reg) = <[Name role := role]> (FixedRoles reg).
Proof.
  intros Hs Hv. unfold saveFixedRole. rewrite Hs.
  destruct (Z.geb_spec (Version stored) (Version role)); [lia | done].
Qed.

Lemma saveFixedRole_new role reg :
  FixedRoles reg !! Name role = None →
  FixedRoles (saveFixedRole role reg) = <[Name role := role]> (FixedRoles reg).
Proof. intros Hs. unfold saveFixedRole. by rewrite Hs. Qed.

Lemma assignOne_roles name reg b :
  FixedRoles (assignOne name reg b) = FixedRoles reg.
Proof.
  unfold assignOne. cbv zeta.
  by destruct (match FixedRoleGrants reg !! b with
               | Some l => scanAssigned name l | None => false end).
Qed.

Lemma assignFixedRole_roles role bs reg :
  FixedRoles (assignFixedRole role bs reg) = FixedRoles reg.
Proof.
  unfold assignFixedRole. revert reg.
  induction bs as [|b bs IH]; intros reg; simpl; [done|].
  by rewrite IH, assignOne_roles.
Qed.

(** What one iteration does to the grant list of every built-in role. *)
Lemma assignOne_lookup name reg b b' :
  FixedRoleGrants (assignOne name reg b) !! b' =
    if bool_decide (b' = b) then
      match FixedRoleGrants reg !! b with
      | Some l => if bool_decide (name ∈ l) then Some l else Some (l ++ [name])
      | None => Some [name]
      end
    else FixedRoleGrants reg !! b'.
Proof.
  unfold assignOne. cbv zeta.
  destruct (FixedRoleGrants reg !! b) as [l|] eqn:Hl; simpl.
  - rewrite scanAssigned_spec. case_bool_decide as Hin; simpl.
    + case_bool_decide; [by subst|done].
    + case_bool_decide; [subst; by rewrite lookup_insert_eq
                        | by rewrite lookup_insert_ne].
  - case_bool_decide; [subst; by rewrite lookup_insert_eq
                      | by rewrite lookup_insert_ne].
Qed.

Lemma assignOne_mono name reg b b' n :
  granted reg b' n → granted (assignOne name reg b) b' n.
Proof.
  intros (l & Hl & Hn). unfold granted. rewrite assignOne_lookup.
  case_bool_decide as Hb; [subst b'|eauto].
  rewrite Hl. case_bool_decide; [eauto|].
  eexists; split; [done|]. apply elem_of_app; by left.
Qed.

Lemma assignOne_granted name reg b : granted (assignOne name reg b) b name.
Proof.
  unfold granted. rewrite assignOne_lookup, bool_decide_eq_true_2 by done.
  destruct (FixedRoleGrants reg !! b) as [l|].
  - case_bool_decide; [eauto|].
    eexists; split; [done|]. apply elem_of_app; right. apply list_elem_of_here.
  - eexists; split; [done|]. apply list_elem_of_here.
Qed.

Lemma assignOne_already name reg b b' l :
  FixedRoleGrants reg !! b' = Some l → name ∈ l →
  FixedRoleGrants (assignOne name reg b) !! b' = Some l.
Proof.
  intros Hl Hn. rewrite assignOne_lookup.
  case_bool_decide; [subst b'|done].
  rewrite Hl. by rewrite bool_decide_eq_true_2.
Qed.

Lemma assignFixedRole_mono role bs reg b n :
  granted reg b n → granted (assignFixedRole role bs reg) b n.
Proof.
  unfold assignFixedRole. revert reg.
  induction bs as [|b0 bs IH]; intros reg H; simpl; [done|].
  apply IH. by apply assignOne_mono.
Qed.

Lemma assignFixedRole_granted role bs reg b :
  b ∈ bs → granted (assignFixedRole role bs reg) b (Name role).
Proof.
  unfold assignFixedRole. revert reg.
  induction bs as [|b0 bs IH]; intros reg Hb; simpl.
  - by apply not_elem_of_nil in Hb.
  - apply elem_of_cons in Hb as [->|Hb]; [|by apply IH].
    apply (assignFixedRole_mono role bs). apply assignOne_granted.
Qed.

Lemma assignFixedRole_already role bs reg b l :
  FixedRoleGrants reg !! b = Some l → Name role ∈ l →
  FixedRoleGrants (assignFixedRole role bs reg) !! b = Some l.
Proof.
  unfold assignFixedRole. revert reg.
  induction bs as [|b0 bs IH]; intros reg Hl Hn; simpl; [done|].
  apply IH; [|done]. by apply assignOne_already.
Qed.

Lemma assignOne_NoDup name reg b :
  (∀ b' l, FixedRoleGrants reg !! b' = Some l → NoDup l) →
  ∀ b' l, FixedRoleGrants (assignOne name reg b) !! b' = Some l → NoDup l.
Proof.
  intros Hnd b' l. rewrite assignOne_lookup.
  case_bool_decide as Hb; [subst b'|by apply Hnd].
  destruct (FixedRoleGrants reg !! b) as [l0|] eqn:Hl0.
  - case_bool_decide as Hin; intros [= <-]; [by eapply Hnd|].
    apply NoDup_app. split_and!; [by eapply Hnd| |apply NoDup_singleton].
    intros x Hx Hx'. apply list_elem_of_singleton in Hx'. by subst.
  - intros [= <-]. apply NoDup_singleton.
Qed.

Lemma assignFixedRole_NoDup role bs reg :
  (∀ b l, FixedRoleGrants reg !! b = Some l → NoDup l) →
  ∀ b l, FixedRoleGrants (assignFixedRole role bs reg) !! b = Some l → NoDup l.
Proof.
  unfold assignFixedRole. revert reg.
  induction bs as [|b0 bs IH]; intros reg Hnd; simpl; [done|].
  apply IH. by apply assignOne_NoDup.
Qed.

Lemma registerFixedRole_mono role bs reg b n :
  granted reg b n → granted (registerFixedRole role bs reg) b n.
Proof.
  intros H. unfold registerFixedRole. apply assignFixedRole_mono.
  unfold granted in *. by rewrite saveFixedRole_grants.
Qed.

Lemma registerAll_app regs1 regs2 reg :
  registerAll (regs1 ++ regs2) reg = registerAll regs2 (registerAll regs1 reg).
Proof. unfold registerAll. by rewrite foldl_app. Qed.

Lemma registerAll_mono regs reg b n :
  granted reg b n → granted (registerAll regs reg) b n.
Proof.
  unfold registerAll. revert reg.
  induction regs as [|r regs IH]; intros reg H; simpl; [done|].
  apply IH. by apply registerFixedRole_mono.
Qed.

(** [RegisterFixedRoles] on an enabled service is the sequence of
    [registerFixedRole] calls over the queued registrations. *)
Lemma Range_always {S} (f : RoleRegistration → S → S) (m : RegistrationList)
    (s : S) :
  Range (λ registration st, (f registration st, true)) m s
  = foldl (λ st registration, f registration st) s m.
Proof.
  revert s. induction m as [|r m IH]; intros s; simpl; [done|]. apply IH.
Qed.

Lemma RegisterFixedRoles_registerAll ac reg :
  RegisterFixedRoles ac reg
  = if IsDisabled ac then (reg, None)
    else (registerAll (registrations ac) reg, None).
Proof.
  unfold RegisterFixedRoles. destruct (IsDisabled ac); [done|].
  by rewrite (Range_always (λ r st, registerFixedRole (Role r) (Grants r) st)).
Qed.

Lemma assignOne_grants_ext name reg1 reg2 b :
  FixedRoleGrants reg1 = FixedRoleGrants reg2 →
  FixedRoleGrants (assignOne name reg1 b) = FixedRoleGrants (assignOne name reg2 b).
Proof.
  intros H. apply map_eq; intros b'. by rewrite !assignOne_lookup, H.
Qed.

Lemma assignFixedRole_grants_ext role bs reg1 reg2 :
  FixedRoleGrants reg1 = FixedRoleGrants reg2 →
  FixedRoleGrants (assignFixedRole role bs reg1)
  = FixedRoleGrants (assignFixedRole role bs reg2).
Proof.
  unfold assignFixedRole. revert reg1 reg2.
  induction bs as [|b bs IH]; intros reg1 reg2 H; simpl; [done|].
  apply IH. by apply assignOne_grants_ext.
Qed.

Lemma registerFixedRole_grants role bs reg :
  FixedRoleGrants (registerFixedRole role bs reg)
  = FixedRoleGrants (assignFixedRole role bs reg).
Proof.
  unfold registerFixedRole. apply assignFixedRole_grants_ext.
  apply saveFixedRole_grants.
Qed.

Lemma registerFixedRole_roles role bs reg :
  FixedRoles (registerFixedRole role bs reg) = FixedRoles (saveFixedRole role reg).
Proof. unfold registerFixedRole. apply assignFixedRole_roles. Qed.

(** C2: when the name of an incoming registration is already stored, a stored
    version greater than or equal to the incoming one leaves the stored body
    (indeed the whole role map) unchanged, a strictly greater incoming version
    replaces the stored body by the incoming one, and in both cases the grants
    are processed exactly as [assignFixedRole] does on the name, so that every
    grant target holds the role name afterwards.  In particular a role first
    applied and then registered again with an equal version keeps the
    first-applied body. *)
Theorem registerFixedRole_version_gate :
  (∀ (reg : Registry) (role stored : RoleDTO) (grants : list string),
     FixedRoles reg !! Name role = Some stored →
     (Version stored >= Version role →
        FixedRoles (registerFixedRole role grants reg) = FixedRoles reg
        ∧ FixedRoles (registerFixedRole role grants reg) !! Name role
          = Some stored)
     ∧ (Version role > Version stored →
          FixedRoles (registerFixedRole role grants reg) !! Name role
          = Some role)
     ∧ FixedRoleGrants (registerFixedRole role grants reg)
       = FixedRoleGrants (assignFixedRole role grants reg)
     ∧ (∀ b, b ∈ grants →
          granted (registerFixedRole role grants reg) b (Name role)))
  ∧ (∀ (reg : Registry) (first again : RoleDTO) (g1 g2 : list string),
       FixedRoles reg !! Name first = None →
       Name again = Name first →
       Version again = Version first →
       FixedRoles (registerFixedRole again g2 (registerFixedRole first g1 reg))
         !! Name first = Some first).
Proof.
  split.
  - intros reg role stored grants Hs. split_and!.
    + intros Hv. rewrite registerFixedRole_roles.
      rewrite (saveFixedRole_kept role reg stored) by done. done.
    + intros Hv. rewrite registerFixedRole_roles.
      rewrite (saveFixedRole_replaced role reg stored) by (done || lia).
      apply lookup_insert_eq.
    + apply registerFixedRole_grants.
    + intros b Hb. unfold registerFixedRole. by apply assignFixedRole_granted.
  - intros reg first again g1 g2 Hnew Hname Hver.
    assert (Hfirst : FixedRoles (registerFixedRole first g1 reg) !! Name again
                     = Some first).
    { rewrite registerFixedRole_roles, saveFixedRole_new by done.
      rewrite Hname. apply lookup_insert_eq. }
    rewrite registerFixedRole_roles.
    rewrite (saveFixedRole_kept again _ first) by (done || lia).
    by rewrite <- Hname.
Qed.

Lemma registerFixedRole_version_gate_witness :
  FixedRoles registryV1 !! Name roleV1again = Some roleV1
  ∧ FixedRoles (registerFixedRole roleV1again ["Editor"] registryV1)
      !! Name roleV1again = Some roleV1
  ∧ FixedRoles (registerFixedRole roleV2 ["Editor"] registryV1)
      !! Name roleV2 = Some roleV2
  ∧ granted (registerFixedRole roleV1again ["Editor"] registryV1)
      "Editor" "fixed:test:test".
Proof.
  assert (H1 : FixedRoles registryV1 !! Name roleV1again = Some roleV1)
    by (vm_compute; reflexivity).
  assert (H2 : FixedRoles registryV1 !! Name roleV2 = Some roleV1)
    by (vm_compute; reflexivity).
  pose proof (proj1 registerFixedRole_version_gate
                registryV1 roleV1again roleV1 ["Editor"] H1)
    as (Hkeep & _ & _ & Hgr).
  pose proof (proj1 registerFixedRole_version_gate
                registryV1 roleV2 roleV1 ["Editor"] H2)
    as (_ & Hrepl & _).
  split_and!.
  - exact H1.
  - apply Hkeep. simpl. lia.
  - apply Hrepl. simpl. lia.
  - apply (Hgr "Editor"). apply list_elem_of_here.
Defined.

(** C3: grants are monotonic and duplicate-free.  The grant pairs after a
    whole sequence of register calls include those after any prefix of it;
    a built-in role that already holds a role name keeps its grant list as it
    is when the name is granted to it again; and grant lists without
    duplicates stay without duplicates. *)
Theorem registerAll_grants_monotonic :
  (∀ (regs1 regs2 : list RoleRegistration) (reg : Registry) (b n : string),
     granted (registerAll regs1 reg) b n →
     granted (registerAll (regs1 ++ regs2) reg) b n)
  ∧ (∀ (role : RoleDTO) (bs : list string) (reg : Registry) (b : string)
       (l : list string),
       FixedRoleGrants reg !! b = Some l → Name role ∈ l →
       FixedRoleGrants (registerFixedRole role bs reg) !! b = Some l)
  ∧ (∀ (role : RoleDTO) (bs : list string) (reg : Registry),
       (∀ b l, FixedRoleGrants reg !! b = Some l → NoDup l) →
       ∀ b l, FixedRoleGrants (registerFixedRole role bs reg) !! b = Some l →
              NoDup l).
Proof.
  split_and!.
  - intros regs1 regs2 reg b n H. rewrite registerAll_app.
    by apply registerAll_mono.
  - intros role bs reg b l Hl Hn. rewrite registerFixedRole_grants.
    by apply assignFixedRole_already.
  - intros role bs reg Hnd b l. rewrite registerFixedRole_grants.
    by apply assignFixedRole_NoDup.
Qed.

Lemma registerAll_grants_monotonic_witness :
  granted (registerAll [{| Role := roleV1; Grants := ["Viewer"] |}]
             emptyRegistry) "Viewer" "fixed:test:test"
  ∧ granted (registerAll ([{| Role := roleV1; Grants := ["Viewer"] |}]
                          ++ [{| Role := roleV2; Grants := ["Viewer"; "Editor"] |}])
               emptyRegistry) "Viewer" "fixed:test:test"
  ∧ FixedRoleGrants (registerFixedRole roleV2 ["Viewer"; "Editor"] registryV1)
      !! "Viewer" = Some ["fixed:test:test"].
Proof.
  assert (H : granted (registerAll [{| Role := roleV1; Grants := ["Viewer"] |}]
                         emptyRegistry) "Viewer" "fixed:test:test").
  { exists ["fixed:test:test"]. split; [vm_compute; reflexivity|].
    apply list_elem_of_here. }
  split_and!.
  - exact H.
  - by apply (proj1 registerAll_grants_monotonic).
  - apply (proj1 (proj2 registerAll_grants_monotonic)).
    + vm_compute; reflexivity.
    + apply list_elem_of_here.
Defined.

(** ** Collecting the fixed permissions *)

Lemma appendRolePermissions_app reg acc name :
  appendRolePermissions reg acc name
  = acc ++ concat (Permissions <$> omap (λ n, FixedRoles reg !! n) [name]).
Proof.
  unfold appendRolePermissions. simpl.
  destruct (FixedRoles reg !! name) as [role|]; simpl.
  - by rewrite foldl_snoc, app_nil_r.
  - by rewrite app_nil_r.
Qed.

Lemma foldl_appendRolePermissions reg names acc :
  foldl (appendRolePermissions reg) acc names
  = acc ++ concat (Permissions <$> omap (λ n, FixedRoles reg !! n) names).
Proof.
  revert acc. induction names as [|name names IH]; intros acc.
  - simpl. by rewrite app_nil_r.
  - cbn [foldl]. rewrite IH, appendRolePermissions_app.
    rewrite <- app_assoc. f_equal. simpl.
    destruct (FixedRoles reg !! name) as [role|]; simpl; [|done].
    by rewrite app_nil_r.
Qed.

Lemma foldl_appendBuiltinPermissions reg builtinRoles acc :
  foldl (appendBuiltinPermissions reg) acc builtinRoles
  = acc ++ presentRolePermissions reg builtinRoles.
Proof.
  unfold presentRolePermissions, grantedRoleNames.
  revert acc. induction builtinRoles as [|b bs IH]; intros acc.
  - simpl. by rewrite app_nil_r.
  - cbn [foldl]. rewrite IH. unfold appendBuiltinPermissions.
    rewrite bind_cons, omap_app, fmap_app, concat_app, app_assoc. f_equal.
    destruct (FixedRoleGrants reg !! b) as [roleNames|]; simpl.
    + apply foldl_appendRolePermissions.
    + by rewrite app_nil_r.
Qed.

(** C10: [getFixedPermissions] is a total function (it has no error result);
    its value is the concatenation, in loop order, of the permissions of the
    granted role names that are present in the role map, and a granted name
    that is absent from the role map contributes nothing. *)
Theorem getFixedPermissions_present_roles :
  (∀ (reg : Registry) (builtinRoles : list string),
     getFixedPermissions reg builtinRoles
     = presentRolePermissions reg builtinRoles)
  ∧ (∀ (reg : Registry) (permissions : list Permission) (name : string),
       FixedRoles reg !! name = None →
       appendRolePermissions reg permissions name = permissions).
Proof.
  split.
  - intros reg builtinRoles. unfold getFixedPermissions.
    by rewrite foldl_appendBuiltinPermissions.
  - intros reg permissions name H. unfold appendRolePermissions. by rewrite H.
Qed.

Lemma getFixedPermissions_present_roles_witness :
  FixedRoles registryGhost !! "fixed:ghost" = None
  ∧ getFixedPermissions registryGhost ["Viewer"] = []
  ∧ appendRolePermissions registryGhost [permUsersReadSelf] "fixed:ghost"
    = [permUsersReadSelf].
Proof.
  assert (H : FixedRoles registryGhost !! "fixed:ghost" = None)
    by (vm_compute; reflexivity).
  split_and!.
  - exact H.
  - rewrite (proj1 getFixedPermissions_present_roles). vm_compute; reflexivity.
  - by apply (proj2 getFixedPermissions_present_roles).
Defined.

(** ** Built-in roles of a user *)

Lemma GetUserBuiltInRoles_unfold user :
  GetUserBuiltInRoles user
  = OrgRole user :: Children (OrgRole user)
    ++ (if IsGrafanaAdmin user then [RoleGrafanaAdmin] else []).
Proof.
  unfold GetUserBuiltInRoles. rewrite foldl_snoc.
  destruct (IsGrafanaAdmin user); simpl; [done|]. by rewrite app_nil_r.
Qed.

Lemma IsValid_cases r :
  IsValid r = true ↔ r = ROLE_VIEWER ∨ r = ROLE_EDITOR ∨ r = ROLE_ADMIN.
Proof.
  unfold IsValid. rewrite !orb_true_iff, !bool_decide_eq_true. tauto.
Qed.

(** C5: as a set, the built-in roles of a user are exactly the declared org
    role, the roles below it on the ladder, and the super-admin sentinel when
    the user carries the super-admin flag.  The ladder makes "Editor" a
    built-in role of Admins and Editors and of nobody else, and "Viewer" a
    built-in role of all three organisational roles.  For a user with one of
    the three organisational roles the list has no duplicates and holds the
    sentinel if and only if the flag is set. *)
Theorem GetUserBuiltInRoles_ladder :
  (∀ (user : SignedInUser) (r : string),
     r ∈ GetUserBuiltInRoles user
     ↔ r = OrgRole user
       ∨ r ∈ Children (OrgRole user)
       ∨ (IsGrafanaAdmin user = true ∧ r = RoleGrafanaAdmin))
  ∧ (∀ user : SignedInUser,
       ROLE_EDITOR ∈ GetUserBuiltInRoles user
       ↔ OrgRole user = ROLE_ADMIN ∨ OrgRole user = ROLE_EDITOR)
  ∧ (∀ user : SignedInUser,
       ROLE_VIEWER ∈ GetUserBuiltInRoles user
       ↔ OrgRole user = ROLE_ADMIN ∨ OrgRole user = ROLE_EDITOR
         ∨ OrgRole user = ROLE_VIEWER)
  ∧ (∀ user : SignedInUser,
       IsValid (OrgRole user) = true →
       NoDup (GetUserBuiltInRoles user)
       ∧ (RoleGrafanaAdmin ∈ GetUserBuiltInRoles user
          ↔ IsGrafanaAdmin user = true)).
Proof.
  assert (Hmem : ∀ (user : SignedInUser) (r : string),
     r ∈ GetUserBuiltInRoles user
     ↔ r = OrgRole user
       ∨ r ∈ Children (OrgRole user)
       ∨ (IsGrafanaAdmin user = true ∧ r = RoleGrafanaAdmin)).
  { intros user r. rewrite GetUserBuiltInRoles_unfold.
    rewrite elem_of_cons, elem_of_app.
    destruct (IsGrafanaAdmin user).
    - rewrite list_elem_of_singleton. intuition congruence.
    - rewrite elem_of_nil. intuition congruence. }
  split_and!; [exact Hmem | | |].
  - intros user. rewrite Hmem. unfold Children.
    repeat case_bool_decide; rewrite ?elem_of_cons, ?elem_of_nil;
      unfold ROLE_EDITOR, ROLE_ADMIN, ROLE_VIEWER, RoleGrafanaAdmin in *;
      intuition congruence.
  - intros user. rewrite Hmem. unfold Children.
    repeat case_bool_decide; rewrite ?elem_of_cons, ?elem_of_nil;
      unfold ROLE_EDITOR, ROLE_ADMIN, ROLE_VIEWER, RoleGrafanaAdmin in *;
      intuition congruence.
  - intros user Hv. apply IsValid_cases in Hv.
    rewrite GetUserBuiltInRoles_unfold.
    destruct user as [uid oid role adm]; simpl in *.
    destruct Hv as [->| [->| ->]]; destruct adm; vm_compute Children;
      (split; [apply (bool_decide_unpack _); vm_compute; exact I|]);
      simpl; rewrite ?elem_of_cons, ?elem_of_nil;
      unfold ROLE_EDITOR, ROLE_ADMIN, ROLE_VIEWER, RoleGrafanaAdmin;
      intuition congruence.
Qed.

Lemma GetUserBuiltInRoles_ladder_witness :
  IsValid (OrgRole testUser) = true
  ∧ NoDup (GetUserBuiltInRoles testUser)
  ∧ RoleGrafanaAdmin ∉ GetUserBuiltInRoles testUser.
Proof.
  assert (H : IsValid (OrgRole testUser) = true) by (vm_compute; reflexivity).
  destruct (proj2 (proj2 (proj2 GetUserBuiltInRoles_ladder)) testUser H)
    as [Hnd Hadm].
  split_and!; [exact H | exact Hnd |].
  intros Hin. apply Hadm in Hin. discriminate Hin.
Defined.

(** ** Declaring fixed roles *)

Lemma ValidateBuiltInRoles_None l :
  ValidateBuiltInRoles l = None ↔ ∀ br, br ∈ l → isBuiltInRole br = true.
Proof.
  induction l as [|br l IH]; simpl.
  - split; [|done]. intros _ br Hbr. by apply elem_of_nil in Hbr.
  - destruct (isBuiltInRole br) eqn:Hb.
    + rewrite IH. split.
      * intros H x Hx. apply elem_of_cons in Hx as [->|Hx]; [done|by apply H].
      * intros H x Hx. apply H. by right.
    + split; [done|]. intros H. specialize (H br (list_elem_of_here _ _)).
      congruence.
Qed.

Lemma ValidateBuiltInRoles_Some l err :
  ValidateBuiltInRoles l = Some err →
  ∃ br, br ∈ l ∧ isBuiltInRole br = false ∧ err = ErrInvalidBuiltinRole br.
Proof.
  induction l as [|br l IH]; simpl; [done|].
  destruct (isBuiltInRole br) eqn:Hb.
  - intros H. destruct (IH H) as (x & Hx & Hbx & ->).
    exists x. split_and!; [by right|done|done].
  - intros [= <-]. exists br. split_and!; [by left|done|done].
Qed.

Lemma valid_registration_passes r :
  ¬ invalidRegistration r →
  ValidateFixedRole (Role r) = None ∧ ValidateBuiltInRoles (Grants r) = None.
Proof.
  intros Hv. unfold ValidateFixedRole. split.
  - destruct (String.prefix FixedRolePrefix (Name (Role r))) eqn:Hp; [done|].
    destruct Hv. by left.
  - apply ValidateBuiltInRoles_None. intros br Hbr.
    destruct (isBuiltInRole br) eqn:Hb; [done|].
    destruct Hv. right. by exists br.
Qed.

Lemma invalid_registration_fails r :
  invalidRegistration r →
  ∃ err,
    match ValidateFixedRole (Role r) with
    | Some e => Some e
    | None => ValidateBuiltInRoles (Grants r)
    end = Some err
    ∧ (err = ErrFixedRolePrefixMissing
       ∨ ∃ br, br ∈ Grants r ∧ err = ErrInvalidBuiltinRole br).
Proof.
  intros Hinv. unfold ValidateFixedRole.
  destruct (String.prefix FixedRolePrefix (Name (Role r))) eqn:Hp.
  - destruct Hinv as [Hinv|(br & Hbr & Hb)]; [congruence|].
    destruct (ValidateBuiltInRoles (Grants r)) as [err|] eqn:Hval.
    + exists err. split; [done|]. right.
      apply ValidateBuiltInRoles_Some in Hval as (x & Hx & _ & ->). eauto.
    + rewrite ValidateBuiltInRoles_None in Hval. rewrite Hval in Hb; done.
  - exists ErrFixedRolePrefixMissing. split; [done|by left].
Qed.

Lemma invalidRegistration_dec r : invalidRegistration r ∨ ¬ invalidRegistration r.
Proof.
  destruct (ValidateFixedRole (Role r)) as [e|] eqn:H1.
  - left. left. unfold ValidateFixedRole in H1.
    by destruct (String.prefix FixedRolePrefix (Name (Role r))).
  - destruct (ValidateBuiltInRoles (Grants r)) as [e|] eqn:H2.
    + left. right. apply ValidateBuiltInRoles_Some in H2 as (br & ? & ? & _).
      eauto.
    + right. intros [Hp|(br & Hbr & Hb)].
      * unfold ValidateFixedRole in H1. rewrite Hp in H1. done.
      * rewrite ValidateBuiltInRoles_None in H2. rewrite H2 in Hb; done.
Qed.

(** A batch without invalid registration is queued whole, in order. *)
Lemma declareLoop_valid ac regs :
  (∀ r, r ∈ regs → ¬ invalidRegistration r) →
  (declareLoop ac regs).2 = None
  ∧ registrations (declareLoop ac regs).1 = registrations ac ++ regs.
Proof.
  revert ac. induction regs as [|r regs IH]; intros ac Hv; simpl.
  - by rewrite app_nil_r.
  - destruct (valid_registration_passes r) as [-> ->];
      [apply Hv; by left|].
    destruct (IH (withRegistrations ac (Append (registrations ac) [r])))
      as [-> ->]; [intros x Hx; apply Hv; by right|].
    split; [done|]. simpl. unfold Append. by rewrite <- app_assoc.
Qed.

(** A batch with an invalid registration stops at the first one: what comes
    before it is queued, it and what follows are not. *)
Lemma declareLoop_invalid ac regs :
  (∃ r, r ∈ regs ∧ invalidRegistration r) →
  ∃ pre bad post err,
    regs = pre ++ bad :: post
    ∧ (∀ r, r ∈ pre → ¬ invalidRegistration r)
    ∧ invalidRegistration bad
    ∧ (err = ErrFixedRolePrefixMissing
       ∨ ∃ br, br ∈ Grants bad ∧ err = ErrInvalidBuiltinRole br)
    ∧ (declareLoop ac regs).2 = Some err
    ∧ registrations (declareLoop ac regs).1 = registrations ac ++ pre.
Proof.
  revert ac. induction regs as [|r regs IH]; intros ac (x & Hx & Hinv).
  - by apply elem_of_nil in Hx.
  - destruct (invalidRegistration_dec r) as [Hr|Hr].
    + destruct (invalid_registration_fails r Hr) as (err & Herr & Hkind).
      exists [], r, regs, err. simpl.
      split_and!; [done| |done|done| |].
      * intros y Hy. by apply elem_of_nil in Hy.
      * destruct (ValidateFixedRole (Role r)) as [e|]; [by simplify_eq|].
        by rewrite Herr.
      * rewrite app_nil_r.
        destruct (ValidateFixedRole (Role r)) as [e|]; [done|].
        by rewrite Herr.
    + apply elem_of_cons in Hx as [->|Hx]; [done|].
      destruct (IH (withRegistrations ac (Append (registrations ac) [r])))
        as (pre & bad & post & err & -> & Hpre & Hbad & Hkind & Herr & Hregs);
        [by exists x|].
      exists (r :: pre), bad, post, err. simpl.
      destruct (valid_registration_passes r Hr) as [-> ->].
      split_and!; [done| |done|done|done|].
      * intros y Hy. apply elem_of_cons in Hy as [->|Hy]; [done|by apply Hpre].
      * rewrite Hregs. simpl. unfold Append. by rewrite <- app_assoc.
Qed.




(** ** The wildcard rule of the evaluator *)

Lemma wildcardPrefix_spec (g p : string) :
  wildcardPrefix g = Some p ↔ g = p +:+ "*".
Proof.
  revert p. induction g as [|c g IH]; intros p.
  - simpl. split; [done|]. by destruct p.
  - destruct g as [|c' g'].
    + simpl. destruct (Ascii.eqb_spec c "*") as [->|Hc].
      * split.
        -- by intros [= <-].
        -- destruct p as [|a p]; [done|]. simpl. intros [= _ H].
           by destruct p.
      * split; [done|]. destruct p as [|a p]; simpl.
        -- intros [= ->]. done.
        -- intros [= _ H]. by destruct p.
    + change (wildcardPrefix (String c (String c' g')))
        with (String c <$> wildcardPrefix (String c' g')).
      rewrite fmap_Some. setoid_rewrite IH. split.
      * intros (x & Hx & ->). simpl. by rewrite Hx.
      * destruct p as [|a p]; simpl; [done|].
        intros [= <- H]. by exists p.
Qed.

Lemma append_nil_l (s : string) : "" +:+ s = s.
Proof. reflexivity. Qed.

Lemma append_cons (a : ascii) (p s : string) :
  String a p +:+ s = String a (p +:+ s).
Proof. reflexivity. Qed.

Lemma append_not_empty (q s : string) : s ≠ "" → q +:+ s ≠ "".
Proof. intros Hs. destruct q; [by rewrite append_nil_l|by rewrite append_cons]. Qed.

Lemma endsWithColon_spec (s : string) :
  endsWithColon s = true ↔ ∃ q, s = q +:+ ":".
Proof.
  induction s as [|c s IH].
  - simpl. split; [done|]. intros [q Hq]. symmetry in Hq.
    by apply append_not_empty in Hq.
  - destruct s as [|c' s'].
    + simpl. rewrite Ascii.eqb_eq. split.
      * intros ->. by exists "".
      * intros [q Hq]. destruct q as [|a q].
        -- rewrite append_nil_l in Hq. congruence.
        -- rewrite append_cons in Hq. injection Hq as _ Hq. symmetry in Hq.
           by apply append_not_empty in Hq.
    + change (endsWithColon (String c (String c' s')))
        with (endsWithColon (String c' s')).
      rewrite IH. split.
      * intros [q ->]. by exists (String c q).
      * intros [q Hq]. destruct q as [|a q].
        -- rewrite append_nil_l in Hq. congruence.
        -- rewrite append_cons in Hq. injection Hq as _ Hq. by exists q.
Qed.

Lemma prefix_spec (p r : string) :
  String.prefix p r = true ↔ ∃ rest, r = p +:+ rest.
Proof.
  revert r. induction p as [|a p IH]; intros r.
  - destruct r; simpl; (split; [eauto|done]).
  - setoid_rewrite append_cons. destruct r as [|b r]; simpl.
    + split; [done|]. by intros [rest Hr].
    + destruct (ascii_dec a b) as [->|Hne].
      * rewrite IH. split; intros [rest Hr]; exists rest; congruence.
      * split; [done|]. intros [rest Hr]. congruence.
Qed.

Lemma atSegmentBoundary_spec (p : string) :
  atSegmentBoundary p = true ↔ p = "" ∨ ∃ q, p = q +:+ ":".
Proof.
  unfold atSegmentBoundary.
  by rewrite orb_true_iff, String.eqb_eq, endsWithColon_spec.
Qed.

(** C9: the wildcard rule.  A granted scope matches a required scope exactly
    when they are textually equal, or the granted scope is the universal
    wildcard, or the granted scope ends in the wildcard marker and its
    literal prefix, which is empty or ends with the segment delimiter, is a
    prefix of the required scope.  The universal wildcard matches every
    required scope; "resources:*" matches "resources:5" and does not match
    "resources-other:5". *)
Theorem scopeMatch_wildcard_rule :
  (∀ granted required : string,
     scopeMatch granted required = true
     ↔ granted = required
       ∨ granted = "*"
       ∨ ∃ p rest,
           granted = p +:+ "*"
           ∧ (p = "" ∨ ∃ q, p = q +:+ ":")
           ∧ required = p +:+ rest)
  ∧ (∀ required : string, scopeMatch "*" required = true)
  ∧ scopeMatch "resources:*" "resources:5" = true
  ∧ scopeMatch "resources:*" "resources-other:5" = false.
Proof.
  split_and!.
  - intros granted required. unfold scopeMatch.
    rewrite !orb_true_iff, !String.eqb_eq.
    split.
    + intros [[H|H]|H]; [by left|by right; left|].
      destruct (wildcardPrefix granted) as [p|] eqn:Hp; [|done].
      apply andb_true_iff in H as [Hb Hpre].
      apply wildcardPrefix_spec in Hp. apply atSegmentBoundary_spec in Hb.
      apply prefix_spec in Hpre as [rest Hrest].
      right; right. by exists p, rest.
    + intros [H|[H|(p & rest & Hg & Hb & Hr)]]; [by left; left|by left; right|].
      right. apply wildcardPrefix_spec in Hg. rewrite Hg.
      apply andb_true_iff. split.
      * by apply atSegmentBoundary_spec.
      * apply prefix_spec. by exists rest.
  - intros required. unfold scopeMatch.
    by rewrite (proj2 (String.eqb_eq "*" "*") eq_refl), orb_true_r.
  - vm_compute; reflexivity.
  - vm_compute; reflexivity.
Qed.

(** ** Resolving the permissions of a user *)

Lemma ResolveKeyword_New user p :
  ResolveKeyword NewScopeResolver user p = Ok (selfResolved user p).
Proof.
  unfold ResolveKeyword, selfResolved, NewScopeResolver. simpl.
  case_bool_decide as Hs.
  - by rewrite Hs, lookup_singleton_eq.
  - rewrite lookup_singleton_ne; [done|congruence].
Qed.

Lemma ResolveKeyword_error s user p err :
  ResolveKeyword s user p = inl err →
  ∃ fn cause, keywordResolvers s !! Scope p = Some fn
              ∧ fn user = inl cause
              ∧ err = ErrResolution (Scope p) cause.
Proof.
  unfold ResolveKeyword.
  destruct (keywordResolvers s !! Scope p) as [fn|]; [|done].
  destruct (fn user) as [cause|scope] eqn:Hfn; [|done].
  intros [= <-]. by exists fn, cause.
Qed.

Lemma resolveLoop_all_ok ac user (f : Permission → Permission) perms acc :
  (∀ p, p ∈ perms → ResolveKeyword (scopeResolver ac) user p = Ok (f p)) →
  resolveLoop ac user acc perms = Ok (acc ++ (f <$> perms)).
Proof.
  revert acc. induction perms as [|p perms IH]; intros acc Hok; simpl.
  - by rewrite app_nil_r.
  - rewrite (Hok p) by apply list_elem_of_here. unfold Ok at 1.
    rewrite IH by (intros q Hq; apply Hok; by right).
    by rewrite <- app_assoc.
Qed.

Lemma resolveLoop_fails ac user perms acc p fn cause :
  p ∈ perms →
  keywordResolvers (scopeResolver ac) !! Scope p = Some fn →
  fn user = inl cause →
  ∃ q cause', q ∈ perms
              ∧ resolveLoop ac user acc perms
                = Err (ErrResolution (Scope q) cause').
Proof.
  intros Hp Hfn Hfail. revert acc.
  induction perms as [|p0 perms IH]; intros acc.
  - by apply elem_of_nil in Hp.
  - simpl.
    destruct (ResolveKeyword (scopeResolver ac) user p0) as [err|q0] eqn:Hr.
    + apply ResolveKeyword_error in Hr as (fn0 & c0 & _ & _ & ->).
      exists p0, c0. split; [by left|done].
    + apply elem_of_cons in Hp as [->|Hp].
      * unfold ResolveKeyword in Hr. rewrite Hfn, Hfail in Hr. done.
      * destruct (IH Hp (acc ++ [q0])) as (q & c & Hq & Hres).
        exists q, c. split; [by right|done].
Qed.

Lemma selfResolved_not_self user p : Scope (selfResolved user p) ≠ "users:self".
Proof.
  unfold selfResolved. case_bool_decide as Hs; [|done].
  simpl. rewrite !append_cons. discriminate.
Qed.

(** C6: with the resolver of [NewScopeResolver], a user with [UserID = 2]
    whose fixed permissions hold [{users:read, users:self}] gets a permission
    list that holds [{users:read, users:id:2}] and does not hold the
    unresolved permission.  With any resolver, when a keyword of one of the
    user's fixed permissions cannot be resolved for the user, the whole call
    returns a resolution error, that is, no permission list at all. *)
Theorem GetUserPermissions_self_scope :
  (∀ (ac : OSSAccessControlService) (reg : Registry) (user : SignedInUser),
     scopeResolver ac = NewScopeResolver →
     UserId user = 2 →
     permUsersReadSelf ∈ getFixedPermissions reg (GetUserBuiltInRoles user) →
     ∃ resolved,
       GetUserPermissions ac reg user = Ok resolved
       ∧ {| Action := "users:read"; Scope := "users:id:2" |} ∈ resolved
       ∧ permUsersReadSelf ∉ resolved)
  ∧ (∀ (ac : OSSAccessControlService) (reg : Registry) (user : SignedInUser)
       (p : Permission) (fn : SignedInUser → result string) (cause : error),
       p ∈ getFixedPermissions reg (GetUserBuiltInRoles user) →
       keywordResolvers (scopeResolver ac) !! Scope p = Some fn →
       fn user = inl cause →
       ∃ q cause',
         q ∈ getFixedPermissions reg (GetUserBuiltInRoles user)
         ∧ GetUserPermissions ac reg user
           = Err (ErrResolution (Scope q) cause')).
Proof.
  split.
  - intros ac reg user Hres Hid Hin.
    exists (selfResolved user <$>
              getFixedPermissions reg (GetUserBuiltInRoles user)).
    split_and!.
    + unfold GetUserPermissions.
      rewrite (resolveLoop_all_ok ac user (selfResolved user)); [done|].
      intros p _. rewrite Hres. apply ResolveKeyword_New.
    + apply list_elem_of_fmap. exists permUsersReadSelf. split; [|done].
      unfold selfResolved. rewrite Hid. vm_compute; reflexivity.
    + intros Hbad. apply list_elem_of_fmap in Hbad as (p & Hp & _).
      apply (selfResolved_not_self user p). by rewrite <- Hp.
  - intros ac reg user p fn cause Hp Hfn Hfail. unfold GetUserPermissions.
    by eapply resolveLoop_fails.
Qed.

Lemma GetUserPermissions_self_scope_witness :
  (∃ resolved,
     GetUserPermissions enabledService registryV1 testUser = Ok resolved
     ∧ permUsersReadTwo ∈ resolved
     ∧ permUsersReadSelf ∉ resolved)
  ∧ (∃ q cause,
       GetUserPermissions teamService registryTeam testUser
       = Err (ErrResolution (Scope q) cause)).
Proof.
  split.
  - apply (proj1 GetUserPermissions_self_scope);
      [reflexivity | reflexivity |].
    vm_compute. apply list_elem_of_here.
  - destruct (proj2 GetUserPermissions_self_scope teamService registryTeam
                testUser permTeamsReadSelf
                (λ _, Err (ErrExternal "no team context"))
                (ErrExternal "no team context"))
      as (q & cause & _ & Hres).
    + vm_compute. list_mem.
    + vm_compute; reflexivity.
    + reflexivity.
    + by exists q, cause.
Defined.

(** ** Evaluation *)












(** ** Metadata of resources *)

Lemma recorded_default (m : gmap string Metadata) r A :
  recorded m r A ↔ default ∅ (m !! r) !! A = Some true.
Proof.
  unfold recorded. destruct (m !! r) as [md|]; simpl.
  - split; [by intros (? & [= <-] & ?)|by exists md].
  - rewrite lookup_empty. split; [by intros (? & ? & ?)|done].
Qed.

Section Metadata.
Context (resource : string).

Lemma scopeCovers_spec r p :
  scopeCovers resource r p = true ↔ coveredBy resource r p.
Proof.
  unfold scopeCovers, coveredBy.
  rewrite !orb_true_iff, !bool_decide_eq_true. tauto.
Qed.

Lemma recordPermission_recorded r0 (m : gmap string Metadata) p r A :
  recorded (recordPermission resource r0 m p) r A
  ↔ recorded m r A ∨ (r = r0 ∧ coveredBy resource r0 p ∧ Action p = A).
Proof.
  unfold recordPermission.
  destruct (scopeCovers resource r0 p) eqn:Hc.
  - apply scopeCovers_spec in Hc. cbv zeta.
    destruct (decide (r = r0)) as [->|Hr].
    + rewrite (recorded_default (<[r0:=_]> m)), lookup_insert_eq. simpl.
      rewrite (recorded_default m).
      destruct (decide (Action p = A)) as [<-|Ha].
      * rewrite lookup_insert_eq. split; [by right|done].
      * rewrite lookup_insert_ne by done. split; [by left|].
        by intros [H|(_ & _ & H)].
    + unfold recorded. rewrite lookup_insert_ne by done.
      split; [by left|]. by intros [H|(H & _)].
  - split; [by left|]. intros [H|(_ & H & _)]; [done|].
    apply scopeCovers_spec in H. congruence.
Qed.

Lemma recordPermission_populated r0 (m : gmap string Metadata) p :
  populated m → populated (recordPermission resource r0 m p).
Proof.
  intros Hm. unfold recordPermission.
  destruct (scopeCovers resource r0 p); [|done]. cbv zeta.
  intros r md. destruct (decide (r = r0)) as [->|Hr].
  - rewrite lookup_insert_eq. intros [= <-]. split.
    + apply insert_non_empty.
    + intros A b. destruct (decide (Action p = A)) as [<-|Ha].
      * rewrite lookup_insert_eq. congruence.
      * rewrite lookup_insert_ne by done.
        destruct (m !! r0) as [md0|] eqn:H0; simpl.
        -- by apply (Hm r0 md0).
        -- by rewrite lookup_empty.
  - rewrite lookup_insert_ne by done. apply Hm.
Qed.

Lemma recordResource_recorded perms (m : gmap string Metadata) r0 r A :
  recorded (recordResource resource perms m r0) r A
  ↔ recorded m r A
    ∨ (r = r0 ∧ ∃ p, p ∈ perms ∧ Action p = A ∧ coveredBy resource r0 p).
Proof.
  unfold recordResource. revert m.
  induction perms as [|p perms IH]; intros m.
  - simpl. split; [by left|]. intros [H|(_ & q & Hq & _)]; [done|].
    by apply elem_of_nil in Hq.
  - cbn [foldl]. rewrite IH, recordPermission_recorded. split.
    + intros [[H|(Hr & Hc & Ha)]|(Hr & q & Hq & Ha & Hc)].
      * by left.
      * right. split; [done|]. exists p. split_and!; [by left|done|done].
      * right. split; [done|]. exists q. split_and!; [by right|done|done].
    + intros [H|(Hr & q & Hq & Ha & Hc)]; [by left; left|].
      apply elem_of_cons in Hq as [->|Hq].
      * left; right. done.
      * right. split; [done|]. by exists q.
Qed.

Lemma recordResource_populated perms (m : gmap string Metadata) r0 :
  populated m → populated (recordResource resource perms m r0).
Proof.
  unfold recordResource. revert m.
  induction perms as [|p perms IH]; intros m Hm; simpl; [done|].
  apply IH. by apply recordPermission_populated.
Qed.

Lemma metadata_recorded perms ids (m : gmap string Metadata) r A :
  recorded (foldl (recordResource resource perms) m ids) r A
  ↔ recorded m r A
    ∨ (r ∈ ids ∧ ∃ p, p ∈ perms ∧ Action p = A ∧ coveredBy resource r p).
Proof.
  revert m. induction ids as [|r0 ids IH]; intros m.
  - simpl. split; [by left|]. intros [H|(Hr & _)]; [done|].
    by apply elem_of_nil in Hr.
  - cbn [foldl]. rewrite IH, recordResource_recorded. split.
    + intros [[H|(-> & Hp)]|(Hr & Hp)].
      * by left.
      * right. split; [by left|done].
      * right. split; [by right|done].
    + intros [H|(Hr & Hp)]; [by left; left|].
      apply elem_of_cons in Hr as [->|Hr].
      * left; right. done.
      * right. done.
Qed.

Lemma metadata_populated perms ids (m : gmap string Metadata) :
  populated m → populated (foldl (recordResource resource perms) m ids).
Proof.
  revert m. induction ids as [|r0 ids IH]; intros m Hm; simpl; [done|].
  apply IH. by apply recordResource_populated.
Qed.

End Metadata.

Lemma populated_empty : populated ∅.
Proof. intros r md H. by rewrite lookup_empty in H. Qed.

(** In a populated map, a resource ID is present exactly when some action is
    recorded under it. *)
Lemma populated_present (m : gmap string Metadata) r :
  populated m → (is_Some (m !! r) ↔ ∃ A, recorded m r A).
Proof.
  intros Hm. split.
  - intros [md Hmd]. destruct (Hm r md Hmd) as [Hne Htrue].
    apply map_choose in Hne as (A & b & Hb).
    exists A, md. split; [done|]. by rewrite Hb, (Htrue A b Hb).
  - intros (A & md & Hmd & _). by exists md.
Qed.

(** C4: when the store answers, [GetResourcesMetadata] returns a map in which
    action [A] is recorded under resource ID [r] exactly when [r] is one of
    the requested IDs and some permission of the fixed permissions followed
    by the stored ones has action [A] and a scope equal to the universal
    wildcard, the scope of all resources of the type, the scope of all IDs of
    the type, or the concrete scope of [r].  A resource ID is absent from the
    map exactly when no permission covers it (or it was not requested); no
    resource ID is present with an empty action map, and every entry of an
    action map is [true]. *)
Theorem GetResourcesMetadata_records :
  ∀ (ac : OSSAccessControlService) (reg : Registry) (user : SignedInUser)
    (resource : string) (resourceIDs : list string)
    (storedPermissions : list Permission),
    GetUserResourcePermissions (store ac) (OrgId user) (UserId user)
      {| BuiltInRoles := GetUserBuiltInRoles user; Resource := resource;
         ResourceIDs := resourceIDs |} = Ok storedPermissions →
    ∃ m,
      GetResourcesMetadata ac reg user resource resourceIDs = Ok m
      ∧ (∀ r A,
           recorded m r A
           ↔ r ∈ resourceIDs
             ∧ ∃ p, p ∈ getFixedPermissions reg (GetUserBuiltInRoles user)
                          ++ storedPermissions
                    ∧ Action p = A ∧ coveredBy resource r p)
      ∧ (∀ r,
           m !! r = None
           ↔ ¬ (r ∈ resourceIDs
                ∧ ∃ p, p ∈ getFixedPermissions reg (GetUserBuiltInRoles user)
                             ++ storedPermissions
                       ∧ coveredBy resource r p))
      ∧ (∀ r, m !! r ≠ Some ∅)
      ∧ (∀ r metadata A b,
           m !! r = Some metadata → metadata !! A = Some b → b = true).
Proof.
  intros ac reg user resource ids stored Hstore.
  unfold GetResourcesMetadata. cbv zeta. rewrite Hstore. unfold Ok at 1.
  eexists. split; [reflexivity|].
  set (perms := getFixedPermissions reg (GetUserBuiltInRoles user) ++ stored).
  set (m := foldl (recordResource resource perms) ∅ ids).
  assert (Hpop : populated m) by apply metadata_populated, populated_empty.
  assert (Hrec : ∀ r A, recorded m r A
            ↔ r ∈ ids ∧ ∃ p, p ∈ perms ∧ Action p = A ∧ coveredBy resource r p).
  { intros r A. unfold m. rewrite metadata_recorded. split; [|by right].
    intros [(md & Hmd & _)|H]; [|done]. by rewrite lookup_empty in Hmd. }
  split_and!.
  - exact Hrec.
  - intros r. rewrite eq_None_not_Some, (populated_present m r Hpop).
    apply not_iff_compat. split.
    + intros (A & HA). apply Hrec in HA as (Hr & p & Hp & _ & Hc).
      split; [done|]. by exists p.
    + intros (Hr & p & Hp & Hc). exists (Action p). apply Hrec.
      split; [done|]. by exists p.
  - intros r Hr. by destruct (Hpop r ∅ Hr) as [Hne _].
  - intros r md A b Hr Hb. by destruct (Hpop r md Hr) as [_ Htrue]; eapply Htrue.
Qed.

Lemma GetResourcesMetadata_records_witness :
  ∃ m,
    GetResourcesMetadata storeService registryV1 testUser "resources"
      ["1"; "2"; "3"] = Ok m
    ∧ recorded m "2" "resources:action2"
    ∧ m !! "1" = None
    ∧ m !! "3" = None.
Proof.
  destruct (GetResourcesMetadata_records storeService registryV1 testUser
              "resources" ["1"; "2"; "3"]
              [{| Action := "resources:action2"; Scope := "resources:id:2" |}]
              eq_refl)
    as (m & Hm & Hrec & Hnone & _).
  exists m. split_and!.
  - exact Hm.
  - apply Hrec. split; [list_mem|].
    exists {| Action := "resources:action2"; Scope := "resources:id:2" |}.
    split_and!.
    + vm_compute. list_mem.
    + reflexivity.
    + right; right; right. reflexivity.
  - apply Hnone. intros (_ & p & Hp & Hc). vm_compute in Hp.
    apply elem_of_cons in Hp as [->|Hp];
      [|apply list_elem_of_singleton in Hp as ->];
      destruct Hc as [Hc|[Hc|[Hc|Hc]]]; discriminate Hc.
  - apply Hnone. intros (_ & p & Hp & Hc). vm_compute in Hp.
    apply elem_of_cons in Hp as [->|Hp];
      [|apply list_elem_of_singleton in Hp as ->];
      destruct Hc as [Hc|[Hc|[Hc|Hc]]]; discriminate Hc.
Defined.

(** C8: when the call to the external store fails, [GetResourcesMetadata]
    returns that very error and no metadata map; the fixed permissions
    computed before the call do not show in the result. *)
Theorem GetResourcesMetadata_store_error :
  ∀ (ac : OSSAccessControlService) (reg : Registry) (user : SignedInUser)
    (resource : string) (resourceIDs : list string) (err : error),
    GetUserResourcePermissions (store ac) (OrgId user) (UserId user)
      {| BuiltInRoles := GetUserBuiltInRoles user; Resource := resource;
         ResourceIDs := resourceIDs |} = Err err →
    GetResourcesMetadata ac reg user resource resourceIDs = Err err.
Proof.
  intros ac reg user resource ids err Hstore.
  unfold GetResourcesMetadata. cbv zeta. by rewrite Hstore.
Qed.

Lemma GetResourcesMetadata_store_error_witness :
  GetResourcesMetadata failingStoreService registryV1 testUser "resources"
    ["1"; "2"; "3"] = Err (ErrExternal "store down").
Proof.
  apply GetResourcesMetadata_store_error. reflexivity.
Defined.

(** ** Cases of the package's tests, replayed on the model *)

(** "should fail registration invalid role name" *)
Example DeclareFixedRoles_invalid_role_name :
  (DeclareFixedRoles enabledService
     [{| Role := {| Version := 1; UID := ""; Name := "custom:test:test";
                    DisplayName := ""; Description := ""; OrgID := 0;
                    Permissions := [] |};
         Grants := ["Admin"] |}]).2
  = Some ErrFixedRolePrefixMissing.
Proof. vm_compute; reflexivity. Qed.

(** "should fail registration invalid builtin role assignment" *)
Example DeclareFixedRoles_invalid_builtin_role :
  (DeclareFixedRoles enabledService [regWrongAdmin]).2
  = Some (ErrInvalidBuiltinRole "WrongAdmin").
Proof. vm_compute; reflexivity. Qed.

(** "should add multiple registrations at once" *)
Example DeclareFixedRoles_multiple :
  DeclareFixedRoles enabledService
    [regAdmin; {| Role := roleV2; Grants := ["Admin"; "Grafana Admin"] |}]
  = (withRegistrations enabledService
       [regAdmin; {| Role := roleV2; Grants := ["Admin"; "Grafana Admin"] |}],
     None).
Proof. vm_compute; reflexivity. Qed.

(** "Successfully ignore unchanged assignment": version 1 then version 2 of
    the role, both granted to "Viewer". *)
Example registerFixedRole_unchanged_assignment :
  let reg := registerFixedRole roleV2 ["Viewer"] registryV1 in
  FixedRoles reg !! "fixed:test:test" = Some roleV2
  ∧ FixedRoleGrants reg !! "Viewer" = Some ["fixed:test:test"].
Proof. split; vm_compute; reflexivity. Qed.

(** "Successfully add a new assignment": version 1 twice, granted to "Viewer"
    and then to "Editor". *)
Example registerFixedRole_new_assignment :
  let reg := registerFixedRole roleV1again ["Editor"] registryV1 in
  FixedRoles reg !! "fixed:test:test" = Some roleV1
  ∧ FixedRoleGrants reg !! "Viewer" = Some ["fixed:test:test"]
  ∧ FixedRoleGrants reg !! "Editor" = Some ["fixed:test:test"].
Proof. split_and!; vm_compute; reflexivity. Qed.

(** "Translate users:self" *)
Example GetUserPermissions_translate_users_self :
  GetUserPermissions enabledService registryV1 testUser = Ok [permUsersReadTwo].
Proof. vm_compute; reflexivity. Qed.

(** Resources 1, 2 and 3 requested, a permission on resource 2 only. *)
Example GetResourcesMetadata_only_resource_two :
  GetResourcesMetadata storeService registryV1 testUser "resources"
    ["1"; "2"; "3"]
  = Ok {[ "2" := {[ "resources:action2" := true ]} ]}.
Proof. vm_compute; reflexivity. Qed.

(** * Further properties of the service *)

(** ** What a register call does to the role map *)

Lemma saveFixedRole_lookup_other role reg n :
  n ≠ Name role →
  FixedRoles (saveFixedRole role reg) !! n = FixedRoles reg !! n.
Proof.
  intros Hn. unfold saveFixedRole.
  destruct (FixedRoles reg !! Name role) as [s|]; simpl.
  - destruct (Version s >=? Version role); [done|]. simpl.
    by rewrite lookup_insert_ne.
  - by rewrite lookup_insert_ne.
Qed.

(** The role map after [saveFixedRole] either is the one before or holds the
    incoming role under its name. *)
Lemma saveFixedRole_cases role reg :
  saveFixedRole role reg = reg
  ∧ (∃ s, FixedRoles reg !! Name role = Some s ∧ Version s >= Version role)
  ∨ FixedRoles (saveFixedRole role reg) = <[Name role := role]> (FixedRoles reg)
    ∧ ∀ s, FixedRoles reg !! Name role = Some s → Version s < Version role.
Proof.
  unfold saveFixedRole.
  destruct (FixedRoles reg !! Name role) as [s|] eqn:Hs.
  - destruct (Z.geb_spec (Version s) (Version role)).
    + left. split; [done|]. exists s. split; [done|lia].
    + right. split; [done|]. by intros ? [= <-].
  - right. split; [done|]. by intros.
Qed.

Lemma saveFixedRole_stored role reg :
  ∃ s, FixedRoles (saveFixedRole role reg) !! Name role = Some s
       ∧ Version s >= Version role.
Proof.
  destruct (saveFixedRole_cases role reg) as [[-> Hs]|[-> _]]; [done|].
  exists role. rewrite lookup_insert_eq. split; [done|lia].
Qed.

Lemma saveFixedRole_version_mono role reg n s :
  FixedRoles reg !! n = Some s →
  ∃ s', FixedRoles (saveFixedRole role reg) !! n = Some s'
        ∧ Version s' >= Version s.
Proof.
  intros Hs. destruct (saveFixedRole_cases role reg) as [[-> _]|[-> Hlt]].
  - exists s. split; [done|lia].
  - destruct (decide (n = Name role)) as [->|Hn].
    + exists role. rewrite lookup_insert_eq. split; [done|].
      specialize (Hlt s Hs). lia.
    + exists s. rewrite lookup_insert_ne by done. split; [done|lia].
Qed.

Lemma registerFixedRole_version_mono role bs reg n s :
  FixedRoles reg !! n = Some s →
  ∃ s', FixedRoles (registerFixedRole role bs reg) !! n = Some s'
        ∧ Version s' >= Version s.
Proof.
  rewrite registerFixedRole_roles. apply saveFixedRole_version_mono.
Qed.

Lemma registerAll_version_mono regs reg n s :
  FixedRoles reg !! n = Some s →
  ∃ s', FixedRoles (registerAll regs reg) !! n = Some s'
        ∧ Version s' >= Version s.
Proof.
  unfold registerAll. revert reg s.
  induction regs as [|r regs IH]; intros reg s Hs; simpl.
  - exists s. split; [done|lia].
  - destruct (registerFixedRole_version_mono (Role r) (Grants r) reg n s Hs)
      as (s1 & Hs1 & Hv1).
    destruct (IH _ s1 Hs1) as (s2 & Hs2 & Hv2).
    exists s2. split; [done|lia].
Qed.

(** ** Registrations that have taken effect *)

Lemma assignOne_id name reg b :
  granted reg b name → assignOne name reg b = reg.
Proof.
  intros (l & Hl & Hn). unfold assignOne. cbv zeta. rewrite Hl.
  rewrite scanAssigned_spec. by rewrite bool_decide_eq_true_2.
Qed.

Lemma assignFixedRole_id role bs reg :
  (∀ b, b ∈ bs → granted reg b (Name role)) →
  assignFixedRole role bs reg = reg.
Proof.
  unfold assignFixedRole. induction bs as [|b bs IH]; intros H; simpl; [done|].
  rewrite assignOne_id by (apply H; by left).
  apply IH. intros b' Hb'. apply H. by right.
Qed.

Lemma registerFixedRole_absorbed_id r reg :
  absorbed r reg → registerFixedRole (Role r) (Grants r) reg = reg.
Proof.
  intros [(s & Hs & Hv) Hg]. unfold registerFixedRole.
  rewrite (saveFixedRole_kept (Role r) reg s) by done.
  by apply assignFixedRole_id.
Qed.

Lemma absorbed_registerFixedRole r role bs reg :
  absorbed r reg → absorbed r (registerFixedRole role bs reg).
Proof.
  intros [(s & Hs & Hv) Hg]. split.
  - destruct (registerFixedRole_version_mono role bs reg _ s Hs)
      as (s' & Hs' & Hv').
    exists s'. split; [done|lia].
  - intros b Hb. apply registerFixedRole_mono. by apply Hg.
Qed.

Lemma absorbed_registerAll r regs reg :
  absorbed r reg → absorbed r (registerAll regs reg).
Proof.
  unfold registerAll. revert reg.
  induction regs as [|r0 regs IH]; intros reg H; simpl; [done|].
  apply IH. by apply absorbed_registerFixedRole.
Qed.

Lemma registerFixedRole_absorbs r reg :
  absorbed r (registerFixedRole (Role r) (Grants r) reg).
Proof.
  split.
  - rewrite registerFixedRole_roles. apply saveFixedRole_stored.
  - intros b Hb. unfold registerFixedRole. by apply assignFixedRole_granted.
Qed.

Lemma registerAll_absorbs regs reg r :
  r ∈ regs → absorbed r (registerAll regs reg).
Proof.
  revert reg. induction regs as [|r0 regs IH]; intros reg Hr.
  - by apply elem_of_nil in Hr.
  - change (registerAll (r0 :: regs) reg)
      with (registerAll regs (registerFixedRole (Role r0) (Grants r0) reg)).
    apply elem_of_cons in Hr as [->|Hr]; [|by apply IH].
    apply absorbed_registerAll, registerFixedRole_absorbs.
Qed.

Lemma registerAll_absorbed_id regs reg :
  (∀ r, r ∈ regs → absorbed r reg) → registerAll regs reg = reg.
Proof.
  induction regs as [|r0 regs IH]; intros H; [done|].
  change (registerAll (r0 :: regs) reg)
    with (registerAll regs (registerFixedRole (Role r0) (Grants r0) reg)).
  rewrite registerFixedRole_absorbed_id by (apply H; by left).
  apply IH. intros r Hr. apply H. by right.
Qed.

(** X1: [RegisterFixedRoles] can be replayed.  Running it a second time on
    the registry the first run produced changes nothing, whatever the queue
    holds (several versions of one role, repeated grants) and whatever the
    registry held before; both runs report no error. *)
Theorem RegisterFixedRoles_replay :
  ∀ (ac : OSSAccessControlService) (reg : Registry),
    RegisterFixedRoles ac (RegisterFixedRoles ac reg).1
    = RegisterFixedRoles ac reg
    ∧ (RegisterFixedRoles ac reg).2 = None.
Proof.
  intros ac reg. rewrite !RegisterFixedRoles_registerAll.
  destruct (IsDisabled ac); simpl; [done|]. split; [|done].
  f_equal. apply registerAll_absorbed_id.
  intros r Hr. by apply registerAll_absorbs.
Qed.

(** X2: after [RegisterFixedRoles] on an enabled service, every queued
    registration has taken effect: a role is stored under its name with a
    version at least the registration's, and every one of its grant targets
    holds the role name. *)
Theorem RegisterFixedRoles_registers_queue :
  ∀ (ac : OSSAccessControlService) (reg : Registry) (r : RoleRegistration),
    IsDisabled ac = false →
    r ∈ registrations ac →
    (∃ stored,
       FixedRoles (RegisterFixedRoles ac reg).1 !! Name (Role r) = Some stored
       ∧ Version stored >= Version (Role r))
    ∧ ∀ b, b ∈ Grants r →
           ∃ l, FixedRoleGrants (RegisterFixedRoles ac reg).1 !! b = Some l
                ∧ Name (Role r) ∈ l.
Proof.
  intros ac reg r Hen Hr. rewrite RegisterFixedRoles_registerAll, Hen. simpl.
  by apply (registerAll_absorbs (registrations ac) reg r).
Qed.

Lemma RegisterFixedRoles_registers_queue_witness :
  (∃ stored,
     FixedRoles (RegisterFixedRoles queuedService emptyRegistry).1
       !! "fixed:test:test" = Some stored
     ∧ Version stored >= 1)
  ∧ ∃ l, FixedRoleGrants (RegisterFixedRoles queuedService emptyRegistry).1
           !! "Viewer" = Some l
         ∧ "fixed:test:test" ∈ l.
Proof.
  destruct (RegisterFixedRoles_registers_queue queuedService emptyRegistry
              {| Role := roleV1; Grants := ["Viewer"] |}) as [Hrole Hgr].
  - vm_compute; reflexivity.
  - apply list_elem_of_here.
  - split; [exact Hrole|]. apply (Hgr "Viewer"). apply list_elem_of_here.
Defined.

(** X3: register calls never remove a stored role and never lower a stored
    version: a role stored under a name before a sequence of register calls
    is followed, after it, by a role under the same name whose version is at
    least as great. *)
Theorem registerAll_versions_never_decrease :
  ∀ (regs : list RoleRegistration) (reg : Registry) (n : string)
    (stored : RoleDTO),
    FixedRoles reg !! n = Some stored →
    ∃ stored', FixedRoles (registerAll regs reg) !! n = Some stored'
               ∧ Version stored' >= Version stored.
Proof. intros regs reg n s. apply registerAll_version_mono. Qed.

Lemma registerAll_versions_never_decrease_witness :
  ∃ stored',
    FixedRoles (registerAll [{| Role := roleV1again; Grants := [] |};
                             {| Role := roleV2; Grants := [] |}] registryV1)
      !! "fixed:test:test" = Some stored'
    ∧ Version stored' >= Version roleV1.
Proof.
  apply registerAll_versions_never_decrease. vm_compute; reflexivity.
Defined.

(** ** The grant lists after a register call *)

Lemma assignFixedRole_lookup role bs reg b :
  FixedRoleGrants (assignFixedRole role bs reg) !! b =
    if bool_decide (b ∈ bs) then
      Some (let l := default [] (FixedRoleGrants reg !! b) in
            if bool_decide (Name role ∈ l) then l else l ++ [Name role])
    else FixedRoleGrants reg !! b.
Proof.
  unfold assignFixedRole. revert reg.
  induction bs as [|b0 bs IH]; intros reg; [done|].
  cbn [foldl]. rewrite IH, assignOne_lookup. cbv zeta.
  destruct (decide (b = b0)) as [->|Hb].
  - rewrite (bool_decide_eq_true_2 (b0 = b0)) by done.
    rewrite (bool_decide_eq_true_2 (b0 ∈ b0 :: bs)) by apply list_elem_of_here.
    destruct (FixedRoleGrants reg !! b0) as [l|]; simpl.
    + destruct (decide (Name role ∈ l)) as [Hin|Hin].
      * rewrite !(bool_decide_eq_true_2 (Name role ∈ l)) by done. simpl.
        rewrite ?(bool_decide_eq_true_2 (Name role ∈ l)) by done.
        by case_bool_decide.
      * rewrite !(bool_decide_eq_false_2 (Name role ∈ l)) by done. simpl.
        rewrite (bool_decide_eq_true_2 (Name role ∈ l ++ [Name role]))
          by (apply elem_of_app; right; apply list_elem_of_here).
        by case_bool_decide.
    + rewrite (bool_decide_eq_true_2 (Name role ∈ [Name role]))
        by apply list_elem_of_here.
      by case_bool_decide.
  - rewrite (bool_decide_eq_false_2 (b = b0)) by done.
    rewrite (bool_decide_ext (b ∈ b0 :: bs) (b ∈ bs)); [done|].
    rewrite elem_of_cons. intuition congruence.
Qed.

(** X4: the closed form of the grant lists after a register call.  A
    built-in role that is not a grant target keeps its entry (or its
    absence) as it is.  A grant target gets an entry in any case; its list
    is the one before (the empty one when there was none) with the role name
    appended at the end once, unless the name was already in it.  No other
    name is added, none is removed and the order is kept. *)
Theorem registerFixedRole_grant_lists :
  ∀ (role : RoleDTO) (bs : list string) (reg : Registry) (b : string),
    FixedRoleGrants (registerFixedRole role bs reg) !! b =
      if bool_decide (b ∈ bs) then
        Some (let l := default [] (FixedRoleGrants reg !! b) in
              if bool_decide (Name role ∈ l) then l else l ++ [Name role])
      else FixedRoleGrants reg !! b.
Proof.
  intros role bs reg b.
  by rewrite registerFixedRole_grants, assignFixedRole_lookup.
Qed.

Lemma granted_registerFixedRole_inv role bs reg b n :
  granted (registerFixedRole role bs reg) b n →
  granted reg b n ∨ (n = Name role ∧ b ∈ bs).
Proof.
  intros (l & Hl & Hn). revert Hl.
  rewrite registerFixedRole_grants, assignFixedRole_lookup. cbv zeta.
  case_bool_decide as Hb; [|intros Hl; left; by exists l].
  destruct (FixedRoleGrants reg !! b) as [l0|] eqn:Hl0; simpl.
  - case_bool_decide; intros [= <-]; [left; by exists l0|].
    apply elem_of_app in Hn as [Hn|Hn]; [left; by exists l0|].
    apply list_elem_of_singleton in Hn. by right.
  - intros [= <-]. apply list_elem_of_singleton in Hn. by right.
Qed.

Lemma registerFixedRole_keyedByName role bs reg :
  keyedByName reg → keyedByName (registerFixedRole role bs reg).
Proof.
  intros Hk k r. rewrite registerFixedRole_roles.
  destruct (saveFixedRole_cases role reg) as [[-> _]|[-> _]]; [apply Hk|].
  destruct (decide (k = Name role)) as [->|Hne].
  - rewrite lookup_insert_eq. by intros [= <-].
  - rewrite lookup_insert_ne by done. apply Hk.
Qed.

Lemma registerFixedRole_grantsRegistered role bs reg :
  grantsRegistered reg → grantsRegistered (registerFixedRole role bs reg).
Proof.
  intros Hg b n Hgr.
  apply granted_registerFixedRole_inv in Hgr as [Hgr|[-> _]].
  - destruct (Hg b n Hgr) as [s Hs].
    destruct (registerFixedRole_version_mono role bs reg n s Hs) as (s' & ? & _).
    by exists s'.
  - rewrite registerFixedRole_roles.
    destruct (saveFixedRole_stored role reg) as (s & Hs & _). by exists s.
Qed.

(** X5: two invariants of the registry.  If every stored role is stored
    under its own name and every granted role name is the name of a stored
    role, the same holds after any sequence of register calls; both hold of
    the empty registry.  Hence, in a registry built by register calls alone,
    no grant names a role that is missing from the role map. *)
Theorem registerAll_keeps_registry_invariants :
  (∀ (regs : list RoleRegistration) (reg : Registry),
     keyedByName reg → grantsRegistered reg →
     keyedByName (registerAll regs reg)
     ∧ grantsRegistered (registerAll regs reg))
  ∧ keyedByName emptyRegistry
  ∧ grantsRegistered emptyRegistry.
Proof.
  split_and!.
  - intros regs. unfold registerAll.
    induction regs as [|r regs IH]; intros reg Hk Hg; simpl; [done|].
    apply IH.
    + by apply registerFixedRole_keyedByName.
    + by apply registerFixedRole_grantsRegistered.
  - intros k r H.
    change (FixedRoles emptyRegistry) with (∅ : gmap string RoleDTO) in H.
    by rewrite lookup_empty in H.
  - intros b n (l & Hl & _).
    change (FixedRoleGrants emptyRegistry)
      with (∅ : gmap string (list string)) in Hl.
    by rewrite lookup_empty in Hl.
Qed.

Lemma registerAll_keeps_registry_invariants_witness :
  keyedByName (registerAll [regAdmin; regWrongAdmin] emptyRegistry)
  ∧ grantsRegistered (registerAll [regAdmin; regWrongAdmin] emptyRegistry).
Proof.
  destruct registerAll_keeps_registry_invariants as (Hstep & Hk & Hg).
  by apply Hstep.
Defined.

Lemma registerAll_provenance regs reg n :
  FixedRoles (registerAll regs reg) !! n = FixedRoles reg !! n
  ∨ ∃ r, r ∈ regs ∧ Name (Role r) = n
         ∧ FixedRoles (registerAll regs reg) !! n = Some (Role r).
Proof.
  revert reg. induction regs as [|r0 regs IH]; intros reg; [by left|].
  change (registerAll (r0 :: regs) reg)
    with (registerAll regs (registerFixedRole (Role r0) (Grants r0) reg)).
  destruct (IH (registerFixedRole (Role r0) (Grants r0) reg))
    as [Heq|(r & Hr & Hn & Hs)].
  - rewrite Heq, registerFixedRole_roles.
    destruct (saveFixedRole_cases (Role r0) reg) as [[-> _]|[Hins _]];
      [by left|].
    destruct (decide (n = Name (Role r0))) as [->|Hne].
    + right. exists r0. split_and!; [by left|done|].
      rewrite Hins. apply lookup_insert_eq.
    + left. rewrite Hins. by rewrite lookup_insert_ne.
  - right. exists r. split_and!; [by right|done|done].
Qed.

(** X6: where a stored role comes from.  After a sequence of register
    calls, the role stored under a name is the one stored before or the role
    of one of the registrations of that name; a name that no registration of
    the sequence carries keeps its entry (or its absence) as it was. *)
Theorem registerAll_stored_role_origin :
  (∀ (regs : list RoleRegistration) (reg : Registry) (n : string),
     FixedRoles (registerAll regs reg) !! n = FixedRoles reg !! n
     ∨ ∃ r, r ∈ regs ∧ Name (Role r) = n
            ∧ FixedRoles (registerAll regs reg) !! n = Some (Role r))
  ∧ (∀ (regs : list RoleRegistration) (reg : Registry) (n : string),
       (∀ r, r ∈ regs → Name (Role r) ≠ n) →
       FixedRoles (registerAll regs reg) !! n = FixedRoles reg !! n).
Proof.
  split.
  - apply registerAll_provenance.
  - intros regs reg n Hno.
    destruct (registerAll_provenance regs reg n) as [H|(r & Hr & Hn & _)];
      [done|]. by destruct (Hno r Hr).
Qed.

Lemma registerAll_stored_role_origin_witness :
  FixedRoles (registerAll [regAdmin; regWrongAdmin] registryGhost)
    !! "fixed:other" = None.
Proof.
  rewrite (proj2 registerAll_stored_role_origin).
  - vm_compute; reflexivity.
  - intros r Hr.
    apply elem_of_cons in Hr as [->|Hr];
      [|apply list_elem_of_singleton in Hr as ->]; discriminate.
Defined.

(** ** The queue of declared registrations *)

Lemma declareLoop_valid_whole ac regs :
  (∀ r, r ∈ regs → ¬ invalidRegistration r) →
  declareLoop ac regs = (withRegistrations ac (registrations ac ++ regs), None).
Proof.
  revert ac. induction regs as [|r regs IH]; intros ac Hv; simpl.
  - rewrite app_nil_r. by destruct ac.
  - destruct (valid_registration_passes r) as [-> ->]; [apply Hv; by left|].
    rewrite IH by (intros x Hx; apply Hv; by right).
    unfold withRegistrations, Append. simpl. by rewrite <- app_assoc.
Qed.

(** X7: on an enabled service, a batch in which every registration is valid
    is queued whole: [DeclareFixedRoles] reports no error and leaves the
    service with the batch appended, in order, to the registrations queued
    before, and with nothing else changed. *)
Theorem DeclareFixedRoles_valid_batch :
  ∀ (ac : OSSAccessControlService) (regs : list RoleRegistration),
    IsDisabled ac = false →
    (∀ r, r ∈ regs → ¬ invalidRegistration r) →
    DeclareFixedRoles ac regs
    = (withRegistrations ac (registrations ac ++ regs), None).
Proof.
  intros ac regs Hen Hv. unfold DeclareFixedRoles. rewrite Hen.
  by apply declareLoop_valid_whole.
Qed.

Lemma regAdmin_valid : ¬ invalidRegistration regAdmin.
Proof.
  intros [Hp|(br & Hbr & Hb)].
  - vm_compute in Hp. discriminate Hp.
  - apply list_elem_of_singleton in Hbr as ->. vm_compute in Hb.
    discriminate Hb.
Qed.

Lemma DeclareFixedRoles_valid_batch_witness :
  DeclareFixedRoles queuedService [regAdmin; regAdmin]
  = (withRegistrations queuedService
       (registrations queuedService ++ [regAdmin; regAdmin]), None).
Proof.
  apply DeclareFixedRoles_valid_batch.
  - vm_compute; reflexivity.
  - intros r Hr.
    assert (r = regAdmin) as ->.
    { apply elem_of_cons in Hr as [->|Hr]; [done|].
      by apply list_elem_of_singleton in Hr. }
    apply regAdmin_valid.
Defined.

Lemma batch_invalid_dec (regs : list RoleRegistration) :
  (∃ r, r ∈ regs ∧ invalidRegistration r)
  ∨ (∀ r, r ∈ regs → ¬ invalidRegistration r).
Proof.
  induction regs as [|r regs IH].
  - right. intros r Hr. by apply elem_of_nil in Hr.
  - destruct (invalidRegistration_dec r) as [Hr|Hr].
    + left. exists r. split; [by left|done].
    + destruct IH as [(x & Hx & Hinv)|Hv].
      * left. exists x. split; [by right|done].
      * right. intros x Hx. apply elem_of_cons in Hx as [->|Hx]; [done|].
        by apply Hv.
Qed.

(** X8: whatever the batch and the outcome, [DeclareFixedRoles] only appends
    to the queue, and what it appends is a leading part of the batch made of
    valid registrations.  So the registrations queued before stay where they
    are, and a queue that holds valid registrations only still does after
    the call. *)
Theorem DeclareFixedRoles_queue_grows_by_valid_prefix :
  (∀ (ac : OSSAccessControlService) (regs : list RoleRegistration),
     ∃ pre post,
       regs = pre ++ post
       ∧ (∀ r, r ∈ pre → ¬ invalidRegistration r)
       ∧ registrations (DeclareFixedRoles ac regs).1 = registrations ac ++ pre)
  ∧ (∀ (ac : OSSAccessControlService) (regs : list RoleRegistration),
       (∀ r, r ∈ registrations ac → ¬ invalidRegistration r) →
       ∀ r, r ∈ registrations (DeclareFixedRoles ac regs).1 →
            ¬ invalidRegistration r).
Proof.
  assert (Hgrow : ∀ ac regs, ∃ pre post,
       regs = pre ++ post
       ∧ (∀ r, r ∈ pre → ¬ invalidRegistration r)
       ∧ registrations (DeclareFixedRoles ac regs).1 = registrations ac ++ pre).
  { intros ac regs. unfold DeclareFixedRoles.
    destruct (IsDisabled ac).
    - exists [], regs. split_and!; [done| |by rewrite app_nil_r].
      intros r Hr. by apply elem_of_nil in Hr.
    - destruct (batch_invalid_dec regs) as [Hinv|Hv].
      + destruct (declareLoop_invalid ac regs Hinv)
          as (pre & bad & post & err & -> & Hpre & _ & _ & _ & Hregs).
        by exists pre, (bad :: post).
      + exists regs, []. split_and!; [by rewrite app_nil_r|done|].
        by destruct (declareLoop_valid ac regs Hv). }
  split; [exact Hgrow|].
  intros ac regs Hq r Hr.
  destruct (Hgrow ac regs) as (pre & post & _ & Hpre & Hregs).
  rewrite Hregs in Hr. apply elem_of_app in Hr as [Hr|Hr]; [by apply Hq|].
  by apply Hpre.
Qed.

Lemma DeclareFixedRoles_queue_grows_by_valid_prefix_witness :
  Forall (λ r, ¬ invalidRegistration r)
    (registrations
       (DeclareFixedRoles enabledService [regAdmin; regWrongAdmin]).1).
Proof.
  apply Forall_forall.
  apply (proj2 DeclareFixedRoles_queue_grows_by_valid_prefix).
  intros r Hr. by apply elem_of_nil in Hr.
Defined.

(** ** Who holds which fixed permission *)

Lemma getFixedPermissions_elem reg bs p :
  p ∈ getFixedPermissions reg bs
  ↔ ∃ b name role,
      b ∈ bs ∧ granted reg b name
      ∧ FixedRoles reg !! name = Some role ∧ p ∈ Permissions role.
Proof.
  unfold getFixedPermissions. rewrite foldl_appendBuiltinPermissions.
  rewrite app_nil_l. unfold presentRolePermissions, grantedRoleNames.
  rewrite list_elem_of_In, in_concat. split.
  - intros (l & Hl & Hp).
    apply list_elem_of_In, list_elem_of_fmap in Hl as (role & -> & Hrole).
    apply list_elem_of_omap in Hrole as (name & Hname & Hlook).
    apply list_elem_of_bind in Hname as (b & Hn & Hb).
    exists b, name, role. split_and!; [done| |done|by apply list_elem_of_In].
    destruct (FixedRoleGrants reg !! b) as [l|] eqn:Hl; simpl in Hn.
    + by exists l.
    + by apply elem_of_nil in Hn.
  - intros (b & name & role & Hb & (l & Hl & Hn) & Hrole & Hp).
    exists (Permissions role). split; [|by apply list_elem_of_In].
    apply list_elem_of_In, list_elem_of_fmap. exists role. split; [done|].
    apply list_elem_of_omap. exists name. split; [|done].
    apply list_elem_of_bind. exists b. split; [|done]. by rewrite Hl.
Qed.

(** X9: who holds a fixed permission.  A permission is among the fixed
    permissions of a list of built-in roles exactly when one of these
    built-in roles holds the name of a role that is stored in the role map
    and lists the permission. *)
Theorem getFixedPermissions_membership :
  ∀ (reg : Registry) (builtinRoles : list string) (p : Permission),
    p ∈ getFixedPermissions reg builtinRoles
    ↔ ∃ b name role,
        b ∈ builtinRoles
        ∧ (∃ l, FixedRoleGrants reg !! b = Some l ∧ name ∈ l)
        ∧ FixedRoles reg !! name = Some role
        ∧ p ∈ Permissions role.
Proof. intros reg bs p. apply getFixedPermissions_elem. Qed.

(** X10: the fixed permissions of a list of built-in roles are those of its
    parts, one after the other; a role granted to two built-in roles of the
    list therefore contributes its permissions twice. *)
Theorem getFixedPermissions_app :
  ∀ (reg : Registry) (l1 l2 : list string),
    getFixedPermissions reg (l1 ++ l2)
    = getFixedPermissions reg l1 ++ getFixedPermissions reg l2.
Proof.
  intros reg l1 l2. unfold getFixedPermissions.
  rewrite foldl_app, !foldl_appendBuiltinPermissions. by rewrite !app_nil_l.
Qed.

(** X11: a register call reaches the users.  After
    [registerFixedRole role grants], a user whose declared org role is one
    of the grant targets, or who is a Grafana admin while the Grafana-admin
    built-in role is one of them, holds every permission of the role that is
    now stored under the name: the incoming role when it was accepted, the
    role stored before when the version gate kept it. *)
Theorem registerFixedRole_reaches_users :
  ∀ (reg : Registry) (role stored : RoleDTO) (grants : list string)
    (user : SignedInUser) (p : Permission),
    OrgRole user ∈ grants
    ∨ (IsGrafanaAdmin user = true ∧ RoleGrafanaAdmin ∈ grants) →
    FixedRoles (registerFixedRole role grants reg) !! Name role = Some stored →
    p ∈ Permissions stored →
    p ∈ getFixedPermissions (registerFixedRole role grants reg)
          (GetUserBuiltInRoles user).
Proof.
  intros reg role stored grants user p Htarget Hstored Hp.
  apply getFixedPermissions_elem.
  destruct Htarget as [Hb|[Hadm Hb]].
  - exists (OrgRole user), (Name role), stored. split_and!; [|  |done|done].
    + rewrite GetUserBuiltInRoles_unfold. by left.
    + unfold registerFixedRole. by apply assignFixedRole_granted.
  - exists RoleGrafanaAdmin, (Name role), stored. split_and!; [| |done|done].
    + rewrite GetUserBuiltInRoles_unfold, Hadm.
      right. apply elem_of_app; right. apply list_elem_of_here.
    + unfold registerFixedRole. by apply assignFixedRole_granted.
Qed.

Lemma registerFixedRole_reaches_users_witness :
  permUsersReadSelf
  ∈ getFixedPermissions (registerFixedRole roleV1 ["Viewer"] emptyRegistry)
      (GetUserBuiltInRoles testUser).
Proof.
  apply (registerFixedRole_reaches_users emptyRegistry roleV1 roleV1
           ["Viewer"] testUser permUsersReadSelf).
  - left. apply list_elem_of_here.
  - vm_compute; reflexivity.
  - apply list_elem_of_here.
Defined.

(** ** More on the metadata of resources *)

(** Two populated metadata maps that record the same actions are equal. *)
Lemma populated_ext (m1 m2 : gmap string Metadata) :
  populated m1 → populated m2 →
  (∀ r A, recorded m1 r A ↔ recorded m2 r A) →
  m1 = m2.
Proof.
  intros H1 H2 Hrec.
  assert (Hsub : ∀ (ma mb : gmap string Metadata),
            populated ma → populated mb →
            (∀ r A, recorded ma r A → recorded mb r A) →
            ∀ r md A b, ma !! r = Some md → md !! A = Some b →
                        ∃ md', mb !! r = Some md' ∧ md' !! A = Some b).
  { intros ma mb Ha Hb Himp r md A b Hr HA.
    destruct (Ha r md Hr) as [_ Htrue].
    assert (b = true) as -> by (by apply (Htrue A)).
    destruct (Himp r A) as (md' & Hr' & HA'); [exists md; by split|].
    by exists md'. }
  apply map_eq. intros r.
  destruct (m1 !! r) as [md1|] eqn:Hr1, (m2 !! r) as [md2|] eqn:Hr2.
  - f_equal. apply map_eq. intros A.
    destruct (md1 !! A) as [b|] eqn:HA1.
    + destruct (Hsub m1 m2 H1 H2 (λ r A, proj1 (Hrec r A)) r md1 A b Hr1 HA1)
        as (md' & Hr' & HA'). by simplify_eq.
    + destruct (md2 !! A) as [b|] eqn:HA2; [|done].
      destruct (Hsub m2 m1 H2 H1 (λ r A, proj2 (Hrec r A)) r md2 A b Hr2 HA2)
        as (md' & Hr' & HA'). by simplify_eq.
  - destruct (H1 r md1 Hr1) as [Hne _].
    apply map_choose in Hne as (A & b & HA).
    destruct (Hsub m1 m2 H1 H2 (λ r A, proj1 (Hrec r A)) r md1 A b Hr1 HA)
      as (md' & Hr' & _). by simplify_eq.
  - destruct (H2 r md2 Hr2) as [Hne _].
    apply map_choose in Hne as (A & b & HA).
    destruct (Hsub m2 m1 H2 H1 (λ r A, proj2 (Hrec r A)) r md2 A b Hr2 HA)
      as (md' & Hr' & _). by simplify_eq.
  - done.
Qed.

Lemma metadata_from_empty resource perms ids r A :
  recorded (foldl (recordResource resource perms) ∅ ids) r A
  ↔ r ∈ ids ∧ ∃ p, p ∈ perms ∧ Action p = A ∧ coveredBy resource r p.
Proof.
  rewrite metadata_recorded. split; [|by right].
  intros [(md & Hmd & _)|H]; [|done]. by rewrite lookup_empty in Hmd.
Qed.

(** X12: the metadata depends on the requested resource IDs and on the
    stored permissions as sets only.  Two calls whose lists of resource IDs
    have the same members and for which the store answers with lists of the
    same permissions return the same map, whatever the order and the
    repetitions in these lists. *)
Theorem GetResourcesMetadata_order_irrelevant :
  ∀ (ac : OSSAccessControlService) (reg : Registry) (user : SignedInUser)
    (resource : string) (ids1 ids2 : list string)
    (stored1 stored2 : list Permission),
    GetUserResourcePermissions (store ac) (OrgId user) (UserId user)
      {| BuiltInRoles := GetUserBuiltInRoles user; Resource := resource;
         ResourceIDs := ids1 |} = Ok stored1 →
    GetUserResourcePermissions (store ac) (OrgId user) (UserId user)
      {| BuiltInRoles := GetUserBuiltInRoles user; Resource := resource;
         ResourceIDs := ids2 |} = Ok stored2 →
    (∀ r, r ∈ ids1 ↔ r ∈ ids2) →
    (∀ p, p ∈ stored1 ↔ p ∈ stored2) →
    GetResourcesMetadata ac reg user resource ids1
    = GetResourcesMetadata ac reg user resource ids2.
Proof.
  intros ac reg user resource ids1 ids2 s1 s2 Hs1 Hs2 Hids Hperms.
  unfold GetResourcesMetadata. cbv zeta. rewrite Hs1, Hs2. unfold Ok.
  f_equal. apply populated_ext.
  - apply metadata_populated, populated_empty.
  - apply metadata_populated, populated_empty.
  - intros r A. rewrite !metadata_from_empty, Hids.
    split; intros (Hr & p & Hp & Hrest); (split; [done|]); exists p;
      (split; [|done]); apply elem_of_app; apply elem_of_app in Hp;
      rewrite Hperms in *; done.
Qed.

Lemma GetResourcesMetadata_order_irrelevant_witness :
  GetResourcesMetadata storeService registryV1 testUser "resources"
    ["1"; "2"; "3"]
  = GetResourcesMetadata storeService registryV1 testUser "resources"
      ["3"; "2"; "2"; "1"].
Proof.
  apply (GetResourcesMetadata_order_irrelevant storeService registryV1 testUser
           "resources" ["1"; "2"; "3"] ["3"; "2"; "2"; "1"]
           [{| Action := "resources:action2"; Scope := "resources:id:2" |}]
           [{| Action := "resources:action2"; Scope := "resources:id:2" |}]);
    [reflexivity | reflexivity | | done].
  intros r. rewrite !elem_of_cons, !elem_of_nil. tauto.
Defined.

(** X13: what shows in the metadata.  The map returned by
    [GetResourcesMetadata] has no key outside the requested resource IDs,
    and a permission whose scope is the universal wildcard, the scope of all
    resources of the type or the scope of all IDs of the type puts its
    action under every requested resource ID. *)
Theorem GetResourcesMetadata_keys_and_wide_scopes :
  ∀ (ac : OSSAccessControlService) (reg : Registry) (user : SignedInUser)
    (resource : string) (resourceIDs : list string)
    (m : gmap string Metadata),
    GetResourcesMetadata ac reg user resource resourceIDs = Ok m →
    (∀ r, is_Some (m !! r) → r ∈ resourceIDs)
    ∧ (∀ p r,
         p ∈ getFixedPermissions reg (GetUserBuiltInRoles user) →
         Scope p = "*"
         ∨ Scope p = GetResourceAllScope resource
         ∨ Scope p = GetResourceAllIDScope resource →
         r ∈ resourceIDs →
         ∃ metadata, m !! r = Some metadata
                     ∧ metadata !! Action p = Some true).
Proof.
  intros ac reg user resource ids m. unfold GetResourcesMetadata. cbv zeta.
  destruct (GetUserResourcePermissions _ _ _ _) as [err|stored]; [done|].
  unfold Ok. intros [= <-].
  set (perms := getFixedPermissions reg (GetUserBuiltInRoles user) ++ stored).
  split.
  - intros r Hr.
    apply (populated_present _ r) in Hr as (A & HA);
      [|apply metadata_populated, populated_empty].
    apply metadata_from_empty in HA. tauto.
  - intros p r Hp Hscope Hr.
    apply (metadata_from_empty resource perms ids r (Action p)).
    split; [done|]. exists p. split_and!; [|done|].
    + apply elem_of_app. by left.
    + unfold coveredBy. tauto.
Qed.

Lemma GetResourcesMetadata_keys_and_wide_scopes_witness :
  ∃ m : gmap string Metadata,
    GetResourcesMetadata storeService registryV1 testUser "resources"
      ["1"; "2"; "3"] = Ok m
    ∧ ∀ r, is_Some (m !! r) → r ∈ ["1"; "2"; "3"].
Proof.
  assert (H : GetResourcesMetadata storeService registryV1 testUser "resources"
                ["1"; "2"; "3"]
              = Ok {[ "2" := {[ "resources:action2" := true ]} ]})
    by (vm_compute; reflexivity).
  eexists. split; [exact H|].
  apply (proj1 (GetResourcesMetadata_keys_and_wide_scopes storeService
                  registryV1 testUser "resources" ["1"; "2"; "3"] _ H)).
Defined.

(** ** The usage metric and the feature toggle *)

(** X14: the usage metric is 1 or 0; it is 1 exactly when the service has a
    configuration whose feature toggles hold the key "accesscontrol",
    whatever value the key has (a toggle set to [false] counts as enabled);
    and when the metric is 0, [DeclareFixedRoles] and [RegisterFixedRoles]
    change nothing and report no error. *)
Theorem getUsageMetrics_follows_toggle :
  (∀ ac : OSSAccessControlService,
     getUsageMetrics ac = 1
     ↔ ∃ cfg v, Cfg ac = Some cfg
                ∧ setting.FeatureToggles cfg !! "accesscontrol" = Some v)
  ∧ (∀ ac : OSSAccessControlService,
       getUsageMetrics ac = 0 ∨ getUsageMetrics ac = 1)
  ∧ (∀ (ac : OSSAccessControlService) (regs : list RoleRegistration)
       (reg : Registry),
       getUsageMetrics ac = 0 →
       DeclareFixedRoles ac regs = (ac, None)
       ∧ RegisterFixedRoles ac reg = (reg, None)).
Proof.
  split_and!.
  - intros ac. unfold getUsageMetrics, IsDisabled.
    destruct (Cfg ac) as [cfg|]; [|split; [done|by intros (? & ? & ? & _)]].
    destruct (setting.FeatureToggles cfg !! "accesscontrol") as [v|] eqn:Hv.
    + split; [|done]. intros _. by exists cfg, v.
    + split; [done|]. intros (cfg' & v & [= <-] & Hv'). congruence.
  - intros ac. unfold getUsageMetrics. destruct (IsDisabled ac); auto.
  - intros ac regs reg. unfold getUsageMetrics, DeclareFixedRoles,
      RegisterFixedRoles.
    by destruct (IsDisabled ac).
Qed.

Lemma getUsageMetrics_follows_toggle_witness :
  getUsageMetrics toggledOffService = 1
  ∧ getUsageMetrics unconfiguredService = 0
  ∧ DeclareFixedRoles unconfiguredService [regWrongAdmin]
    = (unconfiguredService, None).
Proof.
  destruct getUsageMetrics_follows_toggle as (Hone & _ & Hzero).
  assert (H0 : getUsageMetrics unconfiguredService = 0)
    by (vm_compute; reflexivity).
  split_and!.
  - apply Hone. eexists _, false. split; [reflexivity|].
    vm_compute; reflexivity.
  - exact H0.
  - by apply (Hzero unconfiguredService [regWrongAdmin] emptyRegistry).
Defined.

(** ** The tests' removal of a role *)

Lemma keptGrants_from role (l acc : list string) :
  foldl (λ newGrants r,
           if bool_decide (r ≠ role) then newGrants ++ [r] else newGrants)
        acc l
  = acc ++ filter (λ r, r ≠ role) l.
Proof.
  revert acc. induction l as [|x l IH]; intros acc.
  - simpl. by rewrite app_nil_r.
  - cbn [foldl]. rewrite IH, filter_cons.
    case_bool_decide as Hx.
    + rewrite decide_True by done. by rewrite <- app_assoc.
    + rewrite decide_False; [done|]. intros Hne. by apply Hne.
Qed.

Lemma keptGrants_spec role grants :
  keptGrants role grants
  = replicate (length grants) "" ++ filter (λ r, r ≠ role) grants.
Proof. unfold keptGrants. apply keptGrants_from. Qed.

(** The first [range] loop: one replacement list per built-in role. *)
Lemma replaceGrants_lookup (f : list string → list string)
    (m : gmap string (list string)) k :
  map_fold (λ builtInRole grants acc, <[builtInRole := f grants]> acc)
           (∅ : gmap string (list string)) m !! k
  = f <$> m !! k.
Proof.
  revert k.
  apply (map_fold_weak_ind
           (λ (r : gmap string (list string)) m, ∀ k, r !! k = f <$> m !! k)).
  - intros k. by rewrite !lookup_empty.
  - intros i x m' r Hi IH k. destruct (decide (i = k)) as [->|Hne].
    + by rewrite !lookup_insert_eq.
    + rewrite !lookup_insert_ne by done. apply IH.
Qed.

(** The second [range] loop: the replacement lists are written back. *)
Lemma writeBack_lookup (base m : gmap string (list string)) k :
  map_fold (λ br grants acc, <[br := grants]> acc) base m !! k
  = match m !! k with Some grants => Some grants | None => base !! k end.
Proof.
  revert k.
  apply (map_fold_weak_ind
           (λ (r : gmap string (list string)) m,
              ∀ k, r !! k = match m !! k with
                            | Some grants => Some grants
                            | None => base !! k
                            end)).
  - intros k. by rewrite lookup_empty.
  - intros i x m' r Hi IH k. destruct (decide (i = k)) as [->|Hne].
    + by rewrite !lookup_insert_eq.
    + rewrite !lookup_insert_ne by done. apply IH.
Qed.

Lemma removeRoleHelper_grants role reg b :
  FixedRoleGrants (removeRoleHelper role reg) !! b
  = keptGrants role <$> FixedRoleGrants reg !! b.
Proof.
  unfold removeRoleHelper. cbv zeta. simpl.
  rewrite writeBack_lookup, replaceGrants_lookup.
  by destruct (FixedRoleGrants reg !! b).
Qed.

(** X15: what the tests' [removeRoleHelper] leaves behind.  The role is
    gone from the role map and every other entry of it is kept.  Each grant
    list is replaced by as many empty names as it had entries, followed by
    its entries other than the removed name, in their order.  So, unless the
    removed name is the empty one, no built-in role holds it afterwards, and
    every other grant is kept. *)
Theorem removeRoleHelper_removes_role :
  (∀ (role : string) (reg : Registry),
     FixedRoles (removeRoleHelper role reg) = delete role (FixedRoles reg))
  ∧ (∀ (role : string) (reg : Registry) (b : string),
       FixedRoleGrants (removeRoleHelper role reg) !! b
       = (λ grants, replicate (length grants) ""
                    ++ filter (λ r, r ≠ role) grants)
           <$> FixedRoleGrants reg !! b)
  ∧ (∀ (role : string) (reg : Registry) (b : string),
       role ≠ "" → ¬ granted (removeRoleHelper role reg) b role)
  ∧ (∀ (role : string) (reg : Registry) (b n : string),
       n ≠ role → granted reg b n → granted (removeRoleHelper role reg) b n).
Proof.
  split_and!.
  - done.
  - intros role reg b. rewrite removeRoleHelper_grants.
    destruct (FixedRoleGrants reg !! b) as [l|]; simpl; [|done].
    by rewrite keptGrants_spec.
  - intros role reg b Hne (l & Hl & Hin). revert Hl.
    rewrite removeRoleHelper_grants.
    destruct (FixedRoleGrants reg !! b) as [l0|]; simpl; [|done].
    intros [= <-]. rewrite keptGrants_spec in Hin.
    apply elem_of_app in Hin as [Hin|Hin].
    + apply elem_of_replicate in Hin as [-> _]. done.
    + apply list_elem_of_filter in Hin as [Hin _]. done.
  - intros role reg b n Hne (l & Hl & Hin).
    exists (keptGrants role l). split.
    + by rewrite removeRoleHelper_grants, Hl.
    + rewrite keptGrants_spec. apply elem_of_app. right.
      by apply list_elem_of_filter.
Qed.

Lemma removeRoleHelper_removes_role_witness :
  ¬ granted (removeRoleHelper "fixed:test:test" registryTwoRoles)
      "Viewer" "fixed:test:test"
  ∧ granted (removeRoleHelper "fixed:test:test" registryTwoRoles)
      "Viewer" "fixed:test2:test2".
Proof.
  destruct removeRoleHelper_removes_role as (_ & _ & Hgone & Hkept).
  split.
  - apply Hgone. discriminate.
  - apply Hkept; [discriminate|].
    exists ["fixed:test:test"; "fixed:test2:test2"].
    split; [vm_compute; reflexivity|]. list_mem.
Defined.

(** Fixed permissions are the same in two registries whose grant lists give,
    for each built-in role asked for, the same stored roles in the same
    order. *)
Lemma getFixedPermissions_ext reg reg' bs :
  (∀ b, b ∈ bs →
     omap (λ n, FixedRoles reg' !! n) (default [] (FixedRoleGrants reg' !! b))
     = omap (λ n, FixedRoles reg !! n) (default [] (FixedRoleGrants reg !! b))) →
  getFixedPermissions reg' bs = getFixedPermissions reg bs.
Proof.
  intros H. unfold getFixedPermissions.
  rewrite !foldl_appendBuiltinPermissions, !app_nil_l.
  unfold presentRolePermissions, grantedRoleNames. f_equal. f_equal.
  induction bs as [|b bs IH]; [done|].
  rewrite !bind_cons, !omap_app. f_equal.
  - apply H. by left.
  - apply IH. intros b' Hb'. apply H. by right.
Qed.

Lemma omap_cons_match {A B} (f : A → option B) (x : A) (l : list A) :
  omap f (x :: l)
  = match f x with Some y => y :: omap f l | None => omap f l end.
Proof. reflexivity. Qed.

Lemma omap_replicate_None {A B} (f : A → option B) (x : A) (k : nat) :
  f x = None → omap f (replicate k x) = [].
Proof.
  intros Hx. induction k as [|k IH]; [done|].
  change (replicate (S k) x) with (x :: replicate k x).
  by rewrite omap_cons_match, Hx.
Qed.

Lemma omap_filter_out {A B} (f : A → option B) (P : A → Prop)
    `{∀ x, Decision (P x)} (l : list A) :
  (∀ x, ¬ P x → f x = None) → omap f (filter P l) = omap f l.
Proof.
  intros Hout. induction l as [|x l IH]; [done|].
  rewrite filter_cons. destruct (decide (P x)) as [Hx|Hx].
  - by rewrite !omap_cons_match, IH.
  - by rewrite omap_cons_match, (Hout x Hx).
Qed.

Lemma omap_snoc_None {A B} (f : A → option B) (l : list A) (x : A) :
  f x = None → omap f (l ++ [x]) = omap f l.
Proof. intros Hx. rewrite omap_app. simpl. by rewrite Hx, app_nil_r. Qed.

(** X16: removal and the fixed permissions.  In a registry that stores no
    role under the empty name, [removeRoleHelper] takes away from everybody's
    fixed permissions the contribution of the removed role and nothing else:
    the fixed permissions are those computed from the role map without the
    role and the grant lists as they were (the empty names of the padding
    are skipped).  Hence registering a role under a fresh name and removing
    it again gives everybody the fixed permissions held before. *)
Theorem removeRoleHelper_fixed_permissions :
  (∀ (role : string) (reg : Registry) (bs : list string),
     FixedRoles reg !! "" = None →
     getFixedPermissions (removeRoleHelper role reg) bs
     = getFixedPermissions
         {| FixedRoles := delete role (FixedRoles reg);
            FixedRoleGrants := FixedRoleGrants reg |} bs)
  ∧ (∀ (role : RoleDTO) (grants : list string) (reg : Registry)
       (bs : list string),
       FixedRoles reg !! "" = None →
       FixedRoles reg !! Name role = None →
       getFixedPermissions
         (removeRoleHelper (Name role) (registerFixedRole role grants reg)) bs
       = getFixedPermissions reg bs).
Proof.
  assert (Hremove : ∀ (role : string) (reg : Registry) (bs : list string),
     delete role (FixedRoles reg) !! "" = None →
     getFixedPermissions (removeRoleHelper role reg) bs
     = getFixedPermissions
         {| FixedRoles := delete role (FixedRoles reg);
            FixedRoleGrants := FixedRoleGrants reg |} bs).
  { intros role reg bs Hempty. apply getFixedPermissions_ext. intros b _.
    rewrite removeRoleHelper_grants. simpl.
    destruct (FixedRoleGrants reg !! b) as [l|]; simpl; [|done].
    rewrite keptGrants_spec, omap_app.
    rewrite omap_replicate_None by done.
    simpl. apply omap_filter_out. intros x Hx.
    destruct (decide (x = role)) as [->|Hne]; [|done].
    apply lookup_delete_eq. }
  split.
  - intros role reg bs Hempty. apply Hremove.
    destruct (decide (role = "")) as [->|Hne].
    + apply lookup_delete_eq.
    + by rewrite lookup_delete_ne.
  - intros role grants reg bs Hempty Hfresh.
    assert (Hback : delete (Name role)
                      (FixedRoles (registerFixedRole role grants reg))
                    = FixedRoles reg).
    { rewrite registerFixedRole_roles, saveFixedRole_new by done.
      by rewrite delete_insert_id. }
    rewrite Hremove by (by rewrite Hback).
    apply getFixedPermissions_ext. intros b _. simpl. rewrite Hback.
    rewrite registerFixedRole_grants, assignFixedRole_lookup. cbv zeta.
    case_bool_decide; [|done]. simpl.
    case_bool_decide; [done|]. by apply omap_snoc_None.
Qed.

Lemma removeRoleHelper_fixed_permissions_witness :
  getFixedPermissions
    (removeRoleHelper (Name roleV1)
       (registerFixedRole roleV1 ["Viewer"; "Admin"] registryGhost))
    ["Admin"; "Editor"; "Viewer"]
  = getFixedPermissions registryGhost ["Admin"; "Editor"; "Viewer"].
Proof.
  apply (proj2 removeRoleHelper_fixed_permissions); vm_compute; reflexivity.
Defined.

(** ** package filestorage: removing the storage name from a path *)

Lemma append_nil_r (s : string) : s +:+ "" = s.
Proof.
  induction s as [|c s IH]; [done|]. by rewrite append_cons, IH.
Qed.

Lemma append_assoc (a b c : string) : (a +:+ b) +:+ c = a +:+ b +:+ c.
Proof.
  induction a as [|x a IH]; [done|]. by rewrite !append_cons, IH.
Qed.

Lemma prefix_empty (s : string) : String.prefix "" s = true.
Proof. by destruct s. Qed.

Lemma prefix_self_append (p s : string) : String.prefix p (p +:+ s) = true.
Proof. apply prefix_spec. by exists s. Qed.

Lemma stripPrefix_append (p t : string) : stripPrefix p (p +:+ t) = Some t.
Proof.
  induction p as [|a p IH]; [by destruct t|].
  rewrite append_cons. simpl. by rewrite Ascii.eqb_refl.
Qed.

Lemma stripPrefix_not_prefix (p s : string) :
  String.prefix p s = false → stripPrefix p s = None.
Proof.
  revert s. induction p as [|a p IH]; intros s.
  - by rewrite prefix_empty.
  - destruct s as [|b s]; simpl; [done|].
    destruct (ascii_dec a b) as [->|Hne].
    + rewrite Ascii.eqb_refl. apply IH.
    + intros _. by rewrite (proj2 (Ascii.eqb_neq a b)).
Qed.

Lemma TrimPrefix_append (p t : string) : TrimPrefix (p +:+ t) p = t.
Proof. unfold TrimPrefix. by rewrite stripPrefix_append. Qed.

Lemma TrimPrefix_not_prefix (p s : string) :
  String.prefix p s = false → TrimPrefix s p = s.
Proof. intros H. unfold TrimPrefix. by rewrite stripPrefix_not_prefix. Qed.

Lemma splitFrom_nonempty sep s skip cur :
  ∃ h t, splitFrom sep s skip cur = h :: t.
Proof.
  revert skip cur.
  induction s as [|c s IH]; intros skip cur; cbn [splitFrom]; [eauto|].
  destruct skip as [|k]; [|apply IH].
  destruct (String.prefix sep (String c s)); [eauto|apply IH].
Qed.

Lemma Join_cons (e h : string) (t : list string) (sep : string) :
  Join (e :: h :: t) sep = e +:+ sep +:+ Join (h :: t) sep.
Proof. reflexivity. Qed.

(** A string that contains a non-empty separator splits into two pieces at
    least. *)
Lemma splitFrom_two sep s cur :
  sep ≠ "" → Contains s sep = true →
  ∃ h1 h2 t, splitFrom sep s 0 cur = h1 :: h2 :: t.
Proof.
  intros Hsep. revert cur. induction s as [|c s IH]; intros cur.
  - simpl. rewrite orb_false_r. by destruct sep.
  - cbn [Contains splitFrom].
    destruct (String.prefix sep (String c s)); simpl.
    + intros _.
      destruct (splitFrom_nonempty sep s (String.length sep - 1) "")
        as (h & t & ->). eauto.
    + apply IH.
Qed.

(** X17: [removeStoragePrefix] always answers with a rooted path: whatever
    the delimiter and the path, the result begins with the delimiter. *)
Theorem removeStoragePrefix_rooted :
  ∀ Delimiter path : string,
    String.prefix Delimiter (removeStoragePrefix Delimiter path) = true.
Proof.
  intros D path. unfold removeStoragePrefix. cbv zeta.
  set (p := TrimPrefix path D).
  assert (Hself : String.prefix D D = true).
  { apply prefix_spec. exists "". by rewrite append_nil_r. }
  destruct (String.eqb p D || String.eqb p "") eqn:Hp; [done|].
  destruct (Contains p D) eqn:Hc; simpl; [|done].
  destruct (Nat.eqb (length (Split p D)) 2
            && bool_decide (Split p D !! 1%nat = Some "")); [done|].
  destruct (decide (D = "")) as [->|Hsep]; [apply prefix_empty|].
  unfold Split. rewrite (proj2 (String.eqb_neq D "")) by done.
  destruct (splitFrom_two D p "" Hsep Hc) as (h1 & h2 & t & ->).
  simpl. rewrite append_nil_l. apply prefix_self_append.
Qed.

(** *** A delimiter of one character *)

Lemma prefix_char (d c : ascii) (s : string) :
  String.prefix (String d "") (String c s) = bool_decide (d = c).
Proof.
  simpl. destruct (ascii_dec d c) as [->|Hne].
  - by rewrite prefix_empty, bool_decide_eq_true_2.
  - by rewrite bool_decide_eq_false_2.
Qed.

Lemma Contains_cons (d c : ascii) (s : string) :
  Contains (String c s) (String d "")
  = bool_decide (d = c) || Contains s (String d "").
Proof. cbn [Contains]. by rewrite prefix_char. Qed.

Lemma Contains_middle (d : ascii) (a b : string) :
  Contains (a +:+ String d "" +:+ b) (String d "") = true.
Proof.
  induction a as [|c a IH].
  - rewrite append_nil_l, append_cons, Contains_cons.
    by rewrite bool_decide_eq_true_2.
  - rewrite append_cons, Contains_cons, IH. apply orb_true_r.
Qed.

Lemma Contains_decompose (d : ascii) (s : string) :
  Contains s (String d "") = true →
  ∃ a b, s = a +:+ String d "" +:+ b ∧ Contains a (String d "") = false.
Proof.
  induction s as [|c s IH]; [done|].
  rewrite Contains_cons. case_bool_decide as Hc; simpl.
  - intros _. subst c. by exists "", s.
  - intros Hs. destruct (IH Hs) as (a & b & -> & Ha).
    exists (String c a), b. split; [by rewrite append_cons|].
    rewrite Contains_cons, Ha. by rewrite bool_decide_eq_false_2.
Qed.

Lemma splitFrom_first (d : ascii) (a b cur : string) :
  Contains a (String d "") = false →
  splitFrom (String d "") (a +:+ String d "" +:+ b) 0 cur
  = (cur +:+ a) :: splitFrom (String d "") b 0 "".
Proof.
  revert cur. induction a as [|c a IH]; intros cur Ha.
  - rewrite append_nil_l, append_cons, append_nil_l, append_nil_r.
    cbn [splitFrom]. rewrite prefix_char.
    by rewrite bool_decide_eq_true_2.
  - rewrite Contains_cons in Ha. apply orb_false_iff in Ha as [Hc Ha].
    rewrite append_cons. cbn [splitFrom]. rewrite prefix_char, Hc.
    rewrite IH by done. by rewrite append_assoc, append_cons, append_nil_l.
Qed.

Lemma splitFrom_whole (d : ascii) (s cur : string) :
  Contains s (String d "") = false →
  splitFrom (String d "") s 0 cur = [cur +:+ s].
Proof.
  revert cur. induction s as [|c s IH]; intros cur Hs.
  - by rewrite append_nil_r.
  - rewrite Contains_cons in Hs. apply orb_false_iff in Hs as [Hc Hs].
    cbn [splitFrom]. rewrite prefix_char, Hc.
    rewrite IH by done. by rewrite append_assoc, append_cons, append_nil_l.
Qed.

(** [Join] undoes [Split]. *)
Lemma Join_splitFrom (d : ascii) (s cur : string) :
  Join (splitFrom (String d "") s 0 cur) (String d "") = cur +:+ s.
Proof.
  revert cur. induction s as [|c s IH]; intros cur.
  - simpl. by rewrite append_nil_r.
  - cbn [splitFrom]. rewrite prefix_char. case_bool_decide as Hc.
    + subst c. change (String.length (String d "") - 1)%nat with 0%nat.
      destruct (splitFrom_nonempty (String d "") s 0 "") as (h & t & Hs).
      rewrite Hs, Join_cons, <- Hs, IH.
      by rewrite append_nil_l, append_cons, append_nil_l.
    + rewrite IH. by rewrite append_assoc, append_cons, append_nil_l.
Qed.

(** What [removeStoragePrefix] makes of a path, by the form of the path
    once the leading delimiter is trimmed. *)
Lemma removeStoragePrefix_trimmed (d : ascii) (path : string) :
  (Contains (TrimPrefix path (String d "")) (String d "") = false →
   removeStoragePrefix (String d "") path = String d "")
  ∧ (∀ a b, TrimPrefix path (String d "") = a +:+ String d "" +:+ b →
            Contains a (String d "") = false →
            removeStoragePrefix (String d "") path = String d "" +:+ b).
Proof.
  unfold removeStoragePrefix. cbv zeta.
  set (p := TrimPrefix path (String d "")). split.
  - intros Hc. rewrite Hc. simpl.
    by destruct (String.eqb p (String d "") || String.eqb p "").
  - intros a b Hp Ha.
    destruct (String.eqb p (String d "") || String.eqb p "") eqn:He.
    + apply orb_true_iff in He as [He|He]; apply String.eqb_eq in He;
        rewrite He in Hp.
      * destruct a as [|c a].
        -- rewrite append_nil_l, append_cons, append_nil_l in Hp.
           by injection Hp as <-.
        -- rewrite append_cons in Hp. injection Hp as _ Hp. symmetry in Hp.
           apply append_not_empty in Hp; [done|].
           by rewrite append_cons.
      * symmetry in Hp. apply append_not_empty in Hp; [done|].
        by rewrite append_cons.
    + rewrite Hp, Contains_middle. simpl. unfold Split.
      change (String.eqb (String d "") "") with false. cbv iota.
      rewrite splitFrom_first by done. rewrite append_nil_l.
      destruct (splitFrom_nonempty (String d "") b 0 "") as (h & t & Hs).
      pose proof (Join_splitFrom d b "") as Hj.
      rewrite append_nil_l, Hs in Hj. rewrite Hs.
      destruct (Nat.eqb (length (a :: h :: t)) 2
                && bool_decide ((a :: h :: t) !! 1%nat = Some "")) eqn:Hlen.
      * apply andb_true_iff in Hlen as [Hlen Hsnd].
        destruct t; [|done]. apply bool_decide_eq_true in Hsnd.
        injection Hsnd as ->. simpl in Hj. subst b.
        by rewrite append_nil_r.
      * change (<[0%nat:=""]> (a :: h :: t)) with ("" :: h :: t).
        by rewrite Join_cons, Hj, append_nil_l.
Qed.

Lemma not_Contains_not_prefix (d : ascii) (name rest : string) :
  Contains name (String d "") = false → name ≠ "" →
  String.prefix (String d "") (name +:+ rest) = false.
Proof.
  intros Hc Hne. destruct name as [|c name]; [done|].
  rewrite Contains_cons in Hc. apply orb_false_iff in Hc as [Hc _].
  by rewrite append_cons, prefix_char.
Qed.

(** X18: with a delimiter of one character, [removeStoragePrefix] drops the
    first segment of a path, the storage name, whether or not the path is
    written with a leading delimiter, and answers with the rest under the
    root; a path that is a storage name only gives the root.  Here [name]
    is a segment, that is, it does not contain the delimiter. *)
Theorem removeStoragePrefix_drops_storage_name :
  ∀ (d : ascii) (name rest : string),
    Contains name (String d "") = false →
    removeStoragePrefix (String d "")
      (String d "" +:+ name +:+ String d "" +:+ rest)
    = String d "" +:+ rest
    ∧ (name ≠ "" →
       removeStoragePrefix (String d "") (name +:+ String d "" +:+ rest)
       = String d "" +:+ rest)
    ∧ removeStoragePrefix (String d "") (String d "" +:+ name) = String d ""
    ∧ removeStoragePrefix (String d "") name = String d "".
Proof.
  intros d name rest Hname. split_and!.
  - apply (proj2 (removeStoragePrefix_trimmed d _) name rest); [|done].
    apply TrimPrefix_append.
  - intros Hne.
    apply (proj2 (removeStoragePrefix_trimmed d _) name rest); [|done].
    apply TrimPrefix_not_prefix. by apply not_Contains_not_prefix.
  - apply (proj1 (removeStoragePrefix_trimmed d _)).
    by rewrite TrimPrefix_append.
  - apply (proj1 (removeStoragePrefix_trimmed d _)).
    destruct (decide (name = "")) as [->|Hne]; [done|].
    rewrite TrimPrefix_not_prefix; [done|].
    rewrite <- (append_nil_r name). by apply not_Contains_not_prefix.
Qed.

Lemma removeStoragePrefix_drops_storage_name_witness :
  removeStoragePrefix "/" "/public/img/icons" = "/img/icons"
  ∧ removeStoragePrefix "/" "public/img/icons" = "/img/icons"
  ∧ removeStoragePrefix "/" "/public" = "/"
  ∧ removeStoragePrefix "/" "public" = "/".
Proof.
  destruct (removeStoragePrefix_drops_storage_name "/" "public" "img/icons")
    as (H1 & H2 & H3 & H4); [vm_compute; reflexivity|].
  split_and!; [exact H1 | apply H2; discriminate | exact H3 | exact H4].
Defined.

(** ** package filestorage: choosing the backend of a path *)

Section GetBackend.
Context {B : Type}.
Context (validatePath : string → option error) (Delimiter : string).
Context (dummyBackend : B) (backendByName : gmap string B).

Lemma order_entries (order : list (string * B)) name b :
  order ≡ₚ map_to_list backendByName →
  (In (name, b) order ↔ backendByName !! name = Some b).
Proof.
  intros Hperm. rewrite <- list_elem_of_In, Hperm.
  apply elem_of_map_to_list.
Qed.

(** X19: which backend a path goes to.  Let the loop visit the entries of
    [backendByName] in any order and let [validatePath] accept the path.  If
    no backend name, put after the delimiter, is a prefix of the path, the
    dummy backend is returned with the path unchanged.  If exactly one is,
    its backend is returned with the path that [removeStoragePrefix] gives,
    in whatever order the map is visited.  In any case the backend returned
    is the dummy one or one whose name matches in this way. *)
Theorem getBackend_routing :
  ∀ (order : list (string * B)) (path : string),
    order ≡ₚ map_to_list backendByName →
    validatePath path = None →
    ((∀ name b, backendByName !! name = Some b →
                String.prefix (Delimiter +:+ name) path = false) →
     getBackend validatePath Delimiter dummyBackend order path
     = Ok (dummyBackend, path))
    ∧ (∀ name b,
         backendByName !! name = Some b →
         String.prefix (Delimiter +:+ name) path = true →
         (∀ name' b', backendByName !! name' = Some b' →
                      String.prefix (Delimiter +:+ name') path = true →
                      name' = name) →
         getBackend validatePath Delimiter dummyBackend order path
         = Ok (b, removeStoragePrefix Delimiter path))
    ∧ (∀ b path',
         getBackend validatePath Delimiter dummyBackend order path
         = Ok (b, path') →
         (b = dummyBackend ∧ path' = path)
         ∨ (∃ name, backendByName !! name = Some b
                    ∧ String.prefix (Delimiter +:+ name) path = true
                    ∧ path' = removeStoragePrefix Delimiter path)).
Proof.
  intros order path Hperm Hvalid. unfold getBackend. rewrite Hvalid.
  destruct (List.find (λ entry, String.prefix (Delimiter +:+ entry.1) path)
                      order) as [[name0 b0]|] eqn:Hfind.
  - apply find_some in Hfind as [Hin Hpre]. simpl in Hpre.
    apply (order_entries order name0 b0 Hperm) in Hin.
    split_and!.
    + intros Hnone. rewrite (Hnone name0 b0 Hin) in Hpre. done.
    + intros name b Hb Hp Huniq. simpl.
      assert (name0 = name) as -> by (by apply (Huniq name0 b0)).
      by simplify_eq.
    + intros b path'. unfold Ok. intros [= <- <-]. right. by exists name0.
  - split_and!.
    + done.
    + intros name b Hb Hp _.
      apply (order_entries order name b Hperm) in Hb.
      pose proof (find_none _ _ Hfind (name, b) Hb) as Hno. simpl in Hno.
      congruence.
    + intros b path'. unfold Ok. intros [= <- <-]. by left.
Qed.

End GetBackend.

Lemma getBackend_routing_witness :
  getBackend (λ _, None) "/" "dummy" [("public", "public")] "/publicity/x"
  = Ok ("public", "/x")
  ∧ getBackend (λ _, None) "/" "dummy" [("public", "public")] "/private/x"
    = Ok ("dummy", "/private/x").
Proof.
  assert (Hperm : [("public", "public")] ≡ₚ map_to_list publicBackends).
  { unfold publicBackends. by rewrite map_to_list_singleton. }
  destruct (getBackend_routing (λ _, None) "/" "dummy" publicBackends
              [("public", "public")] "/publicity/x" Hperm eq_refl)
    as (_ & Hone & _).
  destruct (getBackend_routing (λ _, None) "/" "dummy" publicBackends
              [("public", "public")] "/private/x" Hperm eq_refl)
    as (Hnone & _ & _).
  split.
  - rewrite (Hone "public" "public").
    + vm_compute; reflexivity.
    + vm_compute; reflexivity.
    + vm_compute; reflexivity.
    + intros name' b' Hb' _. unfold publicBackends in Hb'.
      apply lookup_singleton_Some in Hb' as [<- _]. reflexivity.
  - apply Hnone. intros name b Hb. unfold publicBackends in Hb.
    apply lookup_singleton_Some in Hb as [<- _]. vm_compute; reflexivity.
Defined.
